(** * Qrisp quantum backtracking: node encoding, tree/subtree model and the
      hybrid solution search

    A shallow embedding of [qrisp/quantum_backtracking/backtracking_tree.py].
    Python integers are [Z], Python lists are [list], the probabilities of
    the phase-estimation measurement are IEEE 754 binary64 numbers as Python
    floats are (Rocq's primitive [float], with its addition and comparison),
    exceptions are an explicit result type and the mutable [traversed_nodes]
    list is threaded through the search. *)

From Stdlib Require Import Floats.
From Stdlib Require Import ZArith QArith List Lia Bool Sorted Permutation.
From stdpp Require Import base option gmap.
Import ListNotations.

Local Open Scope Z_scope.

(** ** Python values and helpers *)

Module Py.

(** The exceptions the file raises, by their message:
    - [SubtreeRootTooLong]: "Tried to initialise subtree with root path
      longer than maximum depth";
    - [InsufficientPrecision]: "Executed find solution method of quantum
      backtracking algorithm with insufficient precision";
    - [ShapeMismatch]: an array assignment the register array rejects. *)
Inductive exn : Type :=
| SubtreeRootTooLong
| InsufficientPrecision
| ShapeMismatch.

(** A computation either returns a value or raises. *)
Inductive result (A : Type) : Type :=
| Return (a : A)
| Raise (e : exn).
Arguments Return {A} a.
Arguments Raise {A} e.

Definition bind {A B} (r : result A) (k : A -> result B) : result B :=
  match r with
  | Return a => k a
  | Raise e => Raise e
  end.

(** A value used as a condition: [max_depth % 2] is an [int],
    [not max_depth % 2] a [bool]. *)
Inductive value : Type :=
| Int (z : Z)
| Bool (b : bool).

Definition truthy (v : value) : bool :=
  match v with
  | Int z => negb (z =? 0)
  | Bool b => b
  end.

(** [len(xs)] *)
Definition len {A} (xs : list A) : Z := Z.of_nat (length xs).

(** [xs[:l]] for an arbitrary integer [l]: a negative bound counts from
    the end of the list. *)
Definition slice_to {A} (l : Z) (xs : list A) : list A :=
  if 0 <=? l then firstn (Z.to_nat l) xs
  else firstn (length xs - Z.to_nat (- l)) xs.

(** [xs[::-1]] *)
Definition reversed {A} (xs : list A) : list A := rev xs.

(** [x in xs] for a list of tuples of integers. *)
Definition contains (x : list Z) (xs : list (list Z)) : bool :=
  existsb (fun y => bool_decide (x = y)) xs.

(** [xs.sort(key = f)]: Python's sort is stable, so the result is the
    stable insertion sort by key. *)
Fixpoint insert_by {A} (key : A -> Z) (x : A) (xs : list A) : list A :=
  match xs with
  | [] => [x]
  | y :: ys => if key x <=? key y then x :: y :: ys
               else y :: insert_by key x ys
  end.

Fixpoint sort_by {A} (key : A -> Z) (xs : list A) : list A :=
  match xs with
  | [] => []
  | x :: ys => insert_by key x (sort_by key ys)
  end.

(** [d == {True : 1}] for a dictionary from booleans to numbers: the same
    keys with equal values. *)
Definition eq_true_one (d : gmap bool Q) : bool :=
  match d !! true, d !! false with
  | Some v, None => Qeq_bool v 1
  | _, _ => false
  end.

End Py.
Import Py.

(** ** Trees and subtrees *)

Section Backtracking.

(** The caller's quantum predicates [accept] and [reject] are opaque
    functions on the tree. *)
Variable predicate : Type.

(** The attributes [QuantumBacktrackingTree.__init__] sets.  The registers
    are represented by their shapes: [h_size] qubits for [h], and
    [branch_qa_shape] branch variables in [branch_qa]. *)
Record attrs : Type := Attrs {
  max_depth : Z;
  branch_size : Z;
  degree : Z;
  branch_qa_shape : nat;
  h_size : Z;
  accept_function : predicate;
  reject_function : predicate
}.

(** An object is a plain [QuantumBacktrackingTree] or a [Subtree], which
    adds [root_path] and [original_tree]. *)
Inductive Tree : Type :=
| QBT (a : attrs)
| Sub (a : attrs) (root_path : list Z) (original_tree : Tree).

Definition attrs_of (t : Tree) : attrs :=
  match t with
  | QBT a => a
  | Sub a _ _ => a
  end.

(** [isinstance(tree, Subtree)] *)
Definition is_Subtree (t : Tree) : bool :=
  match t with
  | QBT _ => false
  | Sub _ _ _ => true
  end.

Definition tree_max_depth (t : Tree) : Z := max_depth (attrs_of t).

(** [QuantumBacktrackingTree.__init__]: [branch_qa] has shape [max_depth]
    and [h] has [ceil(log2(max_depth + 2))] qubits.  [h_size] is that
    number taken exactly; the code rounds the logarithm in double precision
    before [ceil].  No property below reads [h_size]. *)
Definition QuantumBacktrackingTree_init
           (md : Z) (bsize : Z) (accept reject : predicate) : attrs :=
  {| max_depth := md;
     branch_size := bsize;
     degree := 2 ^ bsize;
     branch_qa_shape := Z.to_nat md;
     h_size := Z.log2_up (md + 2);
     accept_function := accept;
     reject_function := reject |}.

(** [Subtree.__init__]: the guard, the base-class initialisation with the
    reduced depth, the embedding array of [len(root_path)] further branch
    variables appended to [branch_qa]. *)
Definition Subtree_init (parent_tree : Tree) (root_path : list Z)
  : result Tree :=
  if len root_path >? tree_max_depth parent_tree
  then Raise SubtreeRootTooLong
  else
    let base := QuantumBacktrackingTree_init
                  (tree_max_depth parent_tree - len root_path)
                  (branch_size (attrs_of parent_tree))
                  (accept_function (attrs_of parent_tree))
                  (reject_function (attrs_of parent_tree)) in
    Return (Sub {| max_depth := max_depth base;
                   branch_size := branch_size base;
                   degree := degree base;
                   branch_qa_shape :=
                     (branch_qa_shape base + length root_path)%nat;
                   h_size := h_size base;
                   accept_function := accept_function base;
                   reject_function := reject_function base |}
                root_path parent_tree).

(** [subtree]: the base class builds [Subtree(self, new_root)]; a
    [Subtree] delegates to its [original_tree] with the concatenated
    path. *)
Fixpoint subtree (t : Tree) (path : list Z) : result Tree :=
  match t with
  | QBT _ => Subtree_init t path
  | Sub _ root_path original_tree => subtree original_tree (root_path ++ path)
  end.

(** [copy], which [Subtree] inherits. *)
Definition copy (t : Tree) : result Tree := Subtree_init t [].

(** ** Node encoding *)

(** The values held by the registers [h] and [branch_qa] in a
    computational basis state. *)
Record registers : Type := Registers {
  h : Z;
  branch_qa : list Z
}.

(** The registers of a tree before any initialisation: all zero. *)
Definition fresh (t : Tree) : registers :=
  {| h := 0; branch_qa := repeat 0 (branch_qa_shape (attrs_of t)) |}.

(** Modelled from the spec: the slice assignment [qa[:n] = values] of the
    register array ([QuantumArray], not under src/), with [n = len(values)].
    It writes the values into the first [n] entries and fails when the
    array has fewer than [n] entries ([init_node] "fails if
    [len(path) > max_depth]"). *)
Definition assign_prefix (qa : list Z) (values : list Z)
  : result (list Z) :=
  if (length values <=? length qa)%nat
  then Return (values ++ skipn (length values) qa)
  else Raise ShapeMismatch.

(** [init_node] of the base class and of [Subtree], on fresh registers. *)
Definition init_node (t : Tree) (path : list Z) : result registers :=
  match t with
  | QBT a =>
      let hv := max_depth a - len path in
      if len path =? 0
      then Return {| h := hv; branch_qa := branch_qa (fresh t) |}
      else bind (assign_prefix (branch_qa (fresh t)) (reversed path))
                (fun qa => Return {| h := hv; branch_qa := qa |})
  | Sub a root_path _ =>
      let hv := max_depth a - len path in
      let path := root_path ++ path in
      if len path =? 0
      then Return {| h := hv; branch_qa := branch_qa (fresh t) |}
      else bind (assign_prefix (branch_qa (fresh t)) (reversed path))
                (fun qa => Return {| h := hv; branch_qa := qa |})
  end.

(** [path_decoder] *)
Definition path_decoder (t : Tree) (h : Z) (branch_qa : list Z) : list Z :=
  let l := tree_max_depth t - h in
  reversed (slice_to l branch_qa).

(** A tree as the constructors build it: a base tree of non-negative
    depth, or a [Subtree] of such a tree. *)
Inductive constructed : Tree -> Prop :=
| constructed_QBT md bsize accept reject :
    0 <= md ->
    constructed (QBT (QuantumBacktrackingTree_init md bsize accept reject))
| constructed_Sub parent root_path t :
    constructed parent ->
    Subtree_init parent root_path = Return t ->
    constructed t.

(** The base tree at the end of the chain of [original_tree]s, and the
    path from its root to the root of [t]: the root paths along the chain,
    outermost first. *)
Fixpoint base_tree (t : Tree) : Tree :=
  match t with
  | QBT _ => t
  | Sub _ _ original_tree => base_tree original_tree
  end.

Fixpoint absolute_root (t : Tree) : list Z :=
  match t with
  | QBT _ => []
  | Sub _ root_path original_tree => absolute_root original_tree ++ root_path
  end.

(** The part of [absolute_root] that [t] does not hold itself: the
    absolute root of its [original_tree].  It is empty for a base tree and
    for every tree [subtree] returns; it is not for the copy of a subtree
    with a root path. *)
Definition inherited_root (t : Tree) : list Z :=
  match t with
  | QBT _ => []
  | Sub _ _ original_tree => absolute_root original_tree
  end.

(** ** Measurement *)

(** A key of the measurement of [[qpe_res, tree.h, tree.branch_qa]]. *)
Record outcome : Type := Outcome {
  qpe_value : Q;
  h_value : Z;
  branch_values : list Z
}.

(** Modelled from the spec: [multi_measurement([tree.h, tree.branch_qa])]
    of the simulator (not under src/) on a computational basis state, a
    mapping "from observed value-tuples to probabilities": the single
    outcome holding the register values, with probability 1. *)
Definition multi_measurement_basis (r : registers)
  : list (Z * list Z * Q) :=
  [(h r, branch_qa r, 1%Q)].

(** ** The walk step, as the sequence of operations it issues *)

Variable qubit : Type.

(** What a control position of [mcz] refers to. *)
Inductive target : Type :=
| Oddity                      (* [self.h.significant(0)] *)
| Workspace                   (* [list(self.branch_workspace)] *)
| AcceptValue
| RejectValue
| External (q : qubit).

Inductive operation : Type :=
| PsiPrep (inverted : bool) (even : bool)
| Accept
| Reject
| Flip (q : target)
| Mcz (mcz_list : list target) (ctrl_state : list bool).

(** [psi_prep(x, even)], which looks at [even] only through
    [if not even]. *)
Definition psi_prep (inverted : bool) (even : value) : list operation :=
  [PsiPrep inverted (truthy even)].

(** [qstep_diffuser]; a control state is the list of its characters,
    [false] for "0" and [true] for "1". *)
Definition qstep_diffuser (t : Tree) (even : value) (ctrl : list qubit)
  : list operation :=
  let first_bit := if truthy even then [false] else [true] in
  let workspace_len := Z.to_nat (branch_size (attrs_of t)) in
  psi_prep true even
  ++ [Accept; Flip AcceptValue; Reject; Flip RejectValue;
      Mcz ([Oddity; Workspace; AcceptValue; RejectValue]
             ++ map External ctrl)
          (first_bit ++ repeat false workspace_len ++ [true] ++ [true]
             ++ repeat true (length ctrl))]
  ++ psi_prep false even
  ++ [Reject;
      Mcz ([Oddity; RejectValue] ++ map External ctrl)
          (first_bit
             ++ repeat true
                  (length ([Oddity; RejectValue] ++ map External ctrl) - 1))].

(** [quantum_step] *)
Definition quantum_step (t : Tree) (ctrl : list qubit) : list operation :=
  qstep_diffuser t (Int (tree_max_depth t mod 2)) ctrl
  ++ qstep_diffuser t (Bool (negb (truthy (Int (tree_max_depth t mod 2)))))
       ctrl.

(** ** The hybrid search *)

(** Keyword arguments of the measurement, and the default [{}]. *)
Variable kwargs : Type.
Variable no_kwargs : kwargs.

(** The simulator: [tree.estimate_phase(precision)] followed by
    [multi_measurement([qpe_res, tree.h, tree.branch_qa], **kwargs)] on the
    registers [init_node([])] prepared.  The result is the dictionary in
    iteration order.  The last argument is the number of samplings done
    before, so that two samplings of one tree may differ. *)
Variable sample :
  Tree -> registers -> Z -> kwargs -> nat -> list (outcome * float).

(** The simulator: [copied_tree.accept().get_measurement()]. *)
Variable accept_measurement : predicate -> Tree -> registers -> gmap bool Q.

(** The [cl_accept] that [find_solution] defines when none is given. *)
Definition default_cl_accept (tree : Tree) (path : list Z) : result bool :=
  bind (match tree with
        | Sub _ _ original_tree => copy original_tree
        | QBT _ => copy tree
        end)
       (fun copied_tree =>
          bind (init_node copied_tree path)
               (fun regs =>
                  let mes_res :=
                    accept_measurement
                      (accept_function (attrs_of copied_tree))
                      copied_tree regs in
                  Return (eq_true_one mes_res))).

(** [tree.root_path] for a [Subtree], [[]] otherwise. *)
Definition current_path (tree : Tree) : list Z :=
  match tree with
  | Sub _ root_path _ => root_path
  | QBT _ => []
  end.

(** What a call leaves behind: its result, the content of the
    [traversed_nodes] list and the number of samplings done. *)
Record final : Type := Final {
  value_of : result (option (list Z));
  traversed_of : list (list Z);
  samplings_of : nat
}.

(** The first loop: [s] and [new_branches].  [s] starts as the integer 0,
    which adds to and compares with a float as the float 0.0 does. *)
Definition zero_phase (kv : outcome * float) : bool :=
  Qeq_bool (qpe_value (fst kv)) 0.

Definition zero_mass (mes_res : list (outcome * float)) : float :=
  fold_left (fun s kv => if zero_phase kv then (s + snd kv)%float else s)
            mes_res 0%float.

Definition zero_branches (mes_res : list (outcome * float))
  : list outcome :=
  map fst (filter zero_phase mes_res).

(** The [continue] test of the second loop. *)
Definition skipped (path new_path : list Z) (traversed_nodes : list (list Z))
  : bool :=
  contains (path ++ new_path) traversed_nodes || (len new_path =? 0).

(** The second loop, over the sorted branches; [recurse] is the recursive
    call on a subtree. *)
Fixpoint search_branches
         (recurse : Tree -> list (list Z) -> nat -> option final)
         (tree : Tree) (path : list Z) (new_branches : list outcome)
         (traversed_nodes : list (list Z)) (n : nat) : option final :=
  match new_branches with
  | [] => Some (Final (Raise InsufficientPrecision) traversed_nodes n)
  | b :: rest =>
      let new_path := path_decoder tree (h_value b) (branch_values b) in
      if skipped path new_path traversed_nodes
      then search_branches recurse tree path rest traversed_nodes n
      else
        match subtree tree new_path with
        | Raise e => Some (Final (Raise e) traversed_nodes n)
        | Return sub =>
            match recurse sub traversed_nodes n with
            | None => None
            | Some (Final (Raise e) tr n') => Some (Final (Raise e) tr n')
            | Some (Final (Return (Some sub_sol)) tr n') =>
                Some (Final (Return (Some (path ++ new_path ++ sub_sol)))
                            tr n')
            | Some (Final (Return None) tr n') =>
                search_branches recurse tree path rest
                                (tr ++ [path ++ new_path]) n'
            end
        end
  end.

(** The second loop went through [new_branches] without a solution: each
    branch was skipped, or its subtree was searched and gave [None], after
    which its node was appended to [traversed_nodes].  The relation links
    the list and the sampling count before and after. *)
Inductive exhausted
          (recurse : Tree -> list (list Z) -> nat -> option final)
          (tree : Tree) (path : list Z)
  : list outcome -> list (list Z) -> nat -> list (list Z) -> nat -> Prop :=
| exhausted_nil tr n :
    exhausted recurse tree path [] tr n tr n
| exhausted_skip b rest tr n tr' n' :
    skipped path (path_decoder tree (h_value b) (branch_values b)) tr
    = true ->
    exhausted recurse tree path rest tr n tr' n' ->
    exhausted recurse tree path (b :: rest) tr n tr' n'
| exhausted_tried b rest sub tr n tr1 n1 tr' n' :
    skipped path (path_decoder tree (h_value b) (branch_values b)) tr
    = false ->
    subtree tree (path_decoder tree (h_value b) (branch_values b))
    = Return sub ->
    recurse sub tr n = Some (Final (Return None) tr1 n1) ->
    exhausted recurse tree path rest
              (tr1 ++ [path ++ path_decoder tree (h_value b)
                                            (branch_values b)]) n1 tr' n' ->
    exhausted recurse tree path (b :: rest) tr n tr' n'.

(** [find_solution].  [fuel] bounds the depth of the recursion ([None]
    when it runs out); [n] counts the samplings done so far. *)
Fixpoint find_solution (fuel : nat) (tree : Tree) (precision : Z)
         (cl_accept : option (list Z -> result bool))
         (traversed_nodes : option (list (list Z)))
         (measurement_kwargs : kwargs) (n : nat) : option final :=
  match fuel with
  | O => None
  | S fuel' =>
      let cl_accept :=
        match cl_accept with
        | None => default_cl_accept tree
        | Some f => f
        end in
      let path := current_path tree in
      let given := default [] traversed_nodes in
      match cl_accept path with
      | Raise e => Some (Final (Raise e) given n)
      | Return true => Some (Final (Return (Some [])) given n)
      | Return false =>
          if tree_max_depth tree =? 0
          then Some (Final (Return None) given n)
          else
            let traversed_nodes := given in
            match init_node tree [] with
            | Raise e => Some (Final (Raise e) traversed_nodes n)
            | Return regs =>
                let mes_res :=
                  sample tree regs precision measurement_kwargs n in
                let n := S n in
                let s := zero_mass mes_res in
                let new_branches := zero_branches mes_res in
                if (s <=? 0.25)%float
                then Some (Final (Return None) traversed_nodes n)
                else if (s <=? 0.375)%float
                then Some (Final (Raise InsufficientPrecision)
                                 traversed_nodes n)
                else
                  search_branches
                    (fun sub tr m =>
                       find_solution fuel' sub precision (Some cl_accept)
                                     (Some tr) no_kwargs m)
                    tree path (sort_by h_value new_branches)
                    traversed_nodes n
            end
      end
  end.

End Backtracking.

Arguments Attrs {predicate}.
Arguments max_depth {predicate} a.
Arguments branch_size {predicate} a.
Arguments degree {predicate} a.
Arguments branch_qa_shape {predicate} a.
Arguments h_size {predicate} a.
Arguments accept_function {predicate} a.
Arguments reject_function {predicate} a.
Arguments QBT {predicate} a.
Arguments Sub {predicate} a root_path original_tree.
Arguments attrs_of {predicate} t.
Arguments is_Subtree {predicate} t.
Arguments tree_max_depth {predicate} t.
Arguments QuantumBacktrackingTree_init {predicate} md bsize accept reject.
Arguments Subtree_init {predicate} parent_tree root_path.
Arguments subtree {predicate} t path.
Arguments copy {predicate} t.
Arguments fresh {predicate} t.
Arguments init_node {predicate} t path.
Arguments path_decoder {predicate} t h branch_qa.
Arguments constructed {predicate} t.
Arguments constructed_QBT {predicate} md bsize accept reject _.
Arguments constructed_Sub {predicate} parent root_path t _ _.
Arguments base_tree {predicate} t.
Arguments absolute_root {predicate} t.
Arguments inherited_root {predicate} t.
Arguments External {qubit} q.
Arguments qstep_diffuser {predicate qubit} t even ctrl.
Arguments quantum_step {predicate qubit} t ctrl.
Arguments default_cl_accept {predicate} accept_measurement tree path.
Arguments skipped path new_path traversed_nodes : simpl never.
Arguments current_path {predicate} tree.
Arguments exhausted {predicate} recurse tree path _ _ _ _ _.
Arguments search_branches {predicate} recurse tree path new_branches
  traversed_nodes n.
Arguments find_solution {predicate kwargs} no_kwargs sample accept_measurement
  fuel tree precision cl_accept traversed_nodes measurement_kwargs n.

(** ** Phase estimation, as the sequence of operations it issues *)

Section PhaseEstimation.

Variable predicate : Type.

(** The operations of [estimate_phase] on the estimator register [qpe_res]
    of [size] qubits; a qubit of [qpe_res] is named by its index.
    [Iteration amount body] is the block
    [with IterationEnvironment(self.qs, amount, precompile = True): body]. *)
Inductive phase_operation : Type :=
| Hadamard (size : nat)
| Iteration (amount : Z) (body : list (operation nat))
| InverseQFT (size : nat).

(** [estimate_phase]: [qpe_res = QuantumFloat(precision, -precision)] has
    [precision] qubits. *)
Definition estimate_phase (t : Tree predicate) (precision : Z)
  : list phase_operation :=
  let size := Z.to_nat precision in
  [Hadamard size]
  ++ map (fun i => Iteration (2 ^ Z.of_nat i) (quantum_step t [i]))
         (seq 0 size)
  ++ [InverseQFT size].

(** The number of times the walk step is applied: the sum of the amounts
    of the iteration blocks. *)
Fixpoint iterations (ops : list phase_operation) : Z :=
  match ops with
  | [] => 0
  | Iteration amount _ :: rest => amount + iterations rest
  | _ :: rest => iterations rest
  end.

End PhaseEstimation.

Arguments estimate_phase {predicate} t precision.

(** ** The state |phi>, as the operations [init_phi] issues *)

Section Phi.

Variable predicate : Type.

(** The amplitudes [init_phi] puts in [h_state]: [max_depth ** 0.5] and
    [(-1) ** i]. *)
Inductive phi_amplitude : Type :=
| SqrtDepth (md : Z)
| MinusOnePower (i : Z).

(** [InitH h_state] is [self.h[:] = h_state]; [WhenH value writes] is a
    block [with self.h == value:] whose body writes the value [v] to
    [branch_qa[j]] for each [(j, v)] of [writes], in order. *)
Inductive phi_operation : Type :=
| InitH (h_state : gmap Z phi_amplitude)
| WhenH (value : Z) (writes : list (nat * Z)).

(** The dictionary [h_state]. *)
Definition phi_h_state (md : Z) (path : list Z) : gmap Z phi_amplitude :=
  fold_left (fun h_state i =>
               <[md - Z.of_nat i := MinusOnePower (Z.of_nat i)]> h_state)
            (seq 1 (length path))
            {[ md := SqrtDepth md ]}.

(** The writes [branch_qa[j].encode(path[::-1][j])] for [j] in [range(i)]. *)
Definition phi_path_writes (path : list Z) (i : nat) : list (nat * Z) :=
  map (fun j => (j, nth j (reversed path) 0)) (seq 0 i).

(** The writes [branch_qa[k + i][:] = root_path[::-1][k]] for [k] in
    [range(len(root_path))]. *)
Definition phi_root_writes (root_path : list Z) (i : nat)
  : list (nat * Z) :=
  map (fun k => ((k + i)%nat, nth k (reversed root_path) 0))
      (seq 0 (length root_path)).

(** [init_phi] of the base class and of [Subtree]. *)
Definition init_phi (t : Tree predicate) (path : list Z)
  : list phi_operation :=
  match t with
  | QBT a =>
      InitH (phi_h_state (max_depth a) path)
      :: map (fun i => WhenH (max_depth a - Z.of_nat i)
                             (phi_path_writes path i))
             (seq 1 (length path))
  | Sub a root_path _ =>
      InitH (phi_h_state (max_depth a) path)
      :: WhenH (max_depth a) (phi_root_writes root_path 0)
      :: map (fun i => WhenH (max_depth a - Z.of_nat i)
                             (phi_path_writes path i
                                ++ phi_root_writes root_path i))
             (seq 1 (length path))
  end.

(** The content of a register array after a list of writes, from the
    content [qa] before; [None] when an index is out of range
    ([IndexError]). *)
Fixpoint written (qa : list Z) (writes : list (nat * Z))
  : option (list Z) :=
  match writes with
  | [] => Some qa
  | (j, v) :: rest =>
      if (j <? length qa)%nat then written (<[j := v]> qa) rest else None
  end.

End Phi.

Arguments init_phi {predicate} t path.

(** ** Nodes of the statevector graph *)

Section Introspection.

Variable predicate : Type.

(** Complex amplitudes are opaque. *)
Variable amplitude : Type.

(** [decoder] of the branch variables: the label of the integer [j]. *)
Variable decoder : Z -> Z.

(** The class [QBTNode]. *)
Record QBTNode : Type := Node {
  node_h : Z;
  node_path : list Z;
  node_tree : Tree predicate;
  node_amplitude : option amplitude
}.

(** [QBTNode.__init__] *)
Definition QBTNode_init (tree : Tree predicate) (path : list Z)
           (amplitude : option amplitude) : QBTNode :=
  {| node_h := tree_max_depth tree - len path;
     node_path := path;
     node_tree := tree;
     node_amplitude := amplitude |}.

(** The dictionary [sv_specifier] returns, by the variables that are its
    keys: [tree.h], [tree.branch_workspace] and the entries of
    [tree.branch_qa]. *)
Record specifier : Type := Specifier {
  spec_h : Z;
  spec_branch_workspace : Z;
  spec_branch_qa : list Z
}.

(** [QBTNode.sv_specifier] *)
Definition sv_specifier (node : QBTNode) : specifier :=
  let tree := node_tree node in
  let path :=
    match tree with
    | Sub _ root_path _ => root_path ++ node_path node
    | QBT _ => node_path node
    end in
  {| spec_h := tree_max_depth tree - len (node_path node);
     spec_branch_workspace := decoder 0;
     spec_branch_qa :=
       map (fun k => if Z.of_nat k <? len path
                     then nth k (reversed path) 0
                     else 0)
           (seq 0 (branch_qa_shape (attrs_of tree))) |}.

(** The simulator: [self.qs.statevector("function")]. *)
Variable sv_function : specifier -> amplitude.

(** A directed graph: its nodes and labelled edges in insertion order. *)
Record DiGraph : Type := Graph {
  nodes : list QBTNode;
  edges : list (QBTNode * QBTNode * Z)
}.

(** A node with the amplitude the simulator gives for its specifier. *)
Definition measured_node (tree : Tree predicate) (path : list Z) : QBTNode :=
  let node := QBTNode_init tree path None in
  {| node_h := node_h node;
     node_path := node_path node;
     node_tree := node_tree node;
     node_amplitude := Some (sv_function (sv_specifier node)) |}.

(** The children made for one parent: one per integer [j] in
    [range(2 ** self.branch_qa[0].size)]. *)
Definition child_nodes (tree : Tree predicate) (parent_node : QBTNode)
  : list QBTNode :=
  map (fun j => measured_node tree
                  (node_path parent_node ++ [decoder (Z.of_nat j)]))
      (seq 0 (Z.to_nat (2 ^ branch_size (attrs_of tree)))).

(** One round of the outer loop of [statevector_graph], on the graph and
    [last_layer]. *)
Definition add_layer (tree : Tree predicate)
           (state : DiGraph * list QBTNode) : DiGraph * list QBTNode :=
  let (res_graph, last_layer) := state in
  let next_layer := flat_map (child_nodes tree) last_layer in
  ({| nodes := nodes res_graph ++ next_layer;
      edges :=
        edges res_graph
        ++ flat_map (fun parent_node =>
                       map (fun child_node =>
                              (parent_node, child_node,
                               List.last (node_path child_node) 0))
                           (child_nodes tree parent_node))
                    last_layer |},
   next_layer).

(** [statevector_graph(return_root = True)] *)
Definition statevector_graph (tree : Tree predicate) : DiGraph * QBTNode :=
  let root := measured_node tree [] in
  (fst (Nat.iter (Z.to_nat (tree_max_depth tree)) (add_layer tree)
                 ({| nodes := [root]; edges := [] |}, [root])),
   root).

End Introspection.

Arguments Node {predicate amplitude}.
Arguments node_h {predicate amplitude} q.
Arguments node_path {predicate amplitude} q.
Arguments node_tree {predicate amplitude} q.
Arguments node_amplitude {predicate amplitude} q.
Arguments QBTNode_init {predicate amplitude} tree path _.
Arguments sv_specifier {predicate amplitude} decoder node.
Arguments Graph {predicate amplitude}.
Arguments nodes {predicate amplitude} d.
Arguments edges {predicate amplitude} d.
Arguments measured_node {predicate amplitude} decoder sv_function tree path.
Arguments child_nodes {predicate amplitude} decoder sv_function tree
  parent_node.
Arguments add_layer {predicate amplitude} decoder sv_function tree state.
Arguments statevector_graph {predicate amplitude} decoder sv_function tree.

(** ** Concrete trees, used to run the definitions *)

(** A base tree over one-qubit branches whose predicates carry no
    information. *)
Definition example_tree (md : Z) : Tree unit :=
  QBT (QuantumBacktrackingTree_init md 1 tt tt).

(** [Subtree(parent, root_path)], when it does not raise. *)
Definition example_sub (parent : Tree unit) (root_path : list Z) : Tree unit :=
  match Subtree_init parent root_path with
  | Return t => t
  | Raise _ => parent
  end.

(** A simulator for the examples.  The precision selects the scenario:
    with precision 1 the zero-phase mass is 0.125, with precision 2 it is
    0.3125, and otherwise it is 0.625, spread over the nodes [0, 0] and [1, 0]
    of height 0 and the root of a tree of depth 2. *)
Definition example_sample (tree : Tree unit) (regs : registers)
           (precision : Z) (kw : unit) (n : nat) : list (outcome * float) :=
  if precision =? 1
  then [(Outcome 0 (h regs) (branch_qa regs), 0.125%float);
        (Outcome (1 # 2) (h regs) (branch_qa regs), 0.875%float)]
  else if precision =? 2
  then [(Outcome 0 (h regs) (branch_qa regs), 0.3125%float);
        (Outcome (1 # 2) (h regs) (branch_qa regs), 0.6875%float)]
  else [(Outcome 0 2 [0; 0], 0.125%float);
        (Outcome 0 0 [0; 0], 0.25%float);
        (Outcome (1 # 2) 1 [1; 0], 0.375%float);
        (Outcome 0 0 [0; 1], 0.25%float)].

(** Dictionaries on which the rounding of the sum decides.  With precision
    1: the probabilities 0.075, 0.1 and 0.2 of three nodes of height 0, whose
    sum in this order is the double 0.375 although the three doubles add up
    to more than 3/8.  Otherwise: 0.25 and 2 ** -60, whose sum is the double
    0.25. *)
Definition example_sample_rounding (tree : Tree unit) (regs : registers)
           (precision : Z) (kw : unit) (n : nat) : list (outcome * float) :=
  if precision =? 1
  then [(Outcome 0 0 [0; 1], 0.075%float);
        (Outcome 0 0 [0; 0], 0.1%float);
        (Outcome 0 0 [1; 1], 0.2%float)]
  else [(Outcome 0 0 [0; 1], 0.25%float);
        (Outcome 0 0 [0; 0], 0x1p-60%float)].

(** A simulated [accept] that holds exactly on the nodes of height 0. *)
Definition example_accept_measurement
           (accept : unit) (tree : Tree unit) (regs : registers)
  : gmap bool Q :=
  if h regs =? 0 then {[ true := 1%Q ]} else {[ false := 1%Q ]}.

(** Classical accept functions: one marks the node [1, 0], one marks
    nothing. *)
Definition example_cl_accept (path : list Z) : result bool :=
  Return (bool_decide (path = [1; 0])).

Definition example_cl_reject_all (path : list Z) : result bool :=
  Return false.

(** [find_solution] on the example simulator. *)
Definition example_find :=
  find_solution tt example_sample example_accept_measurement.

(** A simulator whose first sampling points at the node [1] of a tree of
    depth 2 and whose later samplings point, inside the subtree at [1], at
    its child [0]: the accepted node [1, 0] is found one level down. *)
Definition example_sample_deep (tree : Tree unit) (regs : registers)
           (precision : Z) (kw : unit) (n : nat) : list (outcome * float) :=
  if (n =? 0)%nat
  then [(Outcome 0 1 [1; 0], 0.5%float);
        (Outcome (1 # 2) 2 [0; 0], 0.5%float)]
  else [(Outcome 0 0 [0; 1], 0.5%float);
        (Outcome (1 # 2) 1 [0; 1], 0.5%float)].

(** A simulator that always finds the whole mass on the root of the tree
    it samples, with phase 0. *)
Definition example_sample_root (tree : Tree unit) (regs : registers)
           (precision : Z) (kw : unit) (n : nat) : list (outcome * float) :=
  [(Outcome 0 (tree_max_depth tree) (branch_qa regs), 1%float)].

(** Branch labels are the integers themselves, and a stand-in for the
    statevector: the "amplitude" of a basis state is its height. *)
Definition example_decoder (j : Z) : Z := j.

Definition example_sv_function (spec : specifier) : Z := spec_h spec.

(** * Properties *)

Section Encoding.

Context {predicate : Type}.
Implicit Types (t : Tree predicate) (p q : list Z).

Lemma len_app {A} (xs ys : list A) : len (xs ++ ys) = len xs + len ys.
Proof. unfold len. rewrite length_app. lia. Qed.

Lemma len_nonneg {A} (xs : list A) : 0 <= len xs.
Proof. unfold len. lia. Qed.

Lemma len_zero {A} (xs : list A) : (len xs =? 0) = true -> xs = [].
Proof.
  unfold len. intros H%Z.eqb_eq. destruct xs; [reflexivity | simpl in H; lia].
Qed.

Lemma skipn_repeat {A} (x : A) (n m : nat) :
  skipn n (repeat x m) = repeat x (m - n).
Proof.
  revert m. induction n as [| n IH]; intros [| m]; simpl; auto.
Qed.

Lemma firstn_reversed_app p (k : list Z) :
  firstn (length p) (reversed p ++ k) = reversed p.
Proof.
  unfold reversed. rewrite <- (length_rev p). apply take_app_length.
Qed.

Lemma slice_to_len p (k : list Z) :
  slice_to (len p) (reversed p ++ k) = reversed p.
Proof.
  unfold slice_to, len.
  destruct (0 <=? Z.of_nat (length p)) eqn:E; [| apply Z.leb_gt in E; lia].
  rewrite Nat2Z.id. apply firstn_reversed_app.
Qed.

(** The docstring example of [path_decoder]: depth 5, node [1, 0]. *)
Example init_node_docstring :
  init_node (example_tree 5) [1; 0]
  = Return {| h := 3; branch_qa := [0; 1; 0; 0; 0] |}.
Proof. reflexivity. Qed.

Example path_decoder_docstring :
  path_decoder (example_tree 5) 3 [0; 1; 0; 0; 0] = [1; 0].
Proof. reflexivity. Qed.

(** C1: for every tree and every path [p] with [len(p) <= max_depth],
    [path_decoder] applied to [h = max_depth - len(p)] and to [reverse(p)]
    padded with zeros to length [max_depth] returns exactly [p]. *)
Theorem path_decoder_roundtrip t p :
  len p <= tree_max_depth t ->
  path_decoder t (tree_max_depth t - len p)
               (reversed p
                  ++ repeat 0 (Z.to_nat (tree_max_depth t) - length p))
  = p.
Proof.
  intros _. unfold path_decoder.
  replace (tree_max_depth t - (tree_max_depth t - len p)) with (len p) by lia.
  rewrite slice_to_len. unfold reversed. apply rev_involutive.
Qed.

(** What [init_node] writes is what C1 decodes: on a base tree the
    registers hold the height and the padded reversed path. *)
Lemma init_node_QBT_registers (a : attrs predicate) p :
  branch_qa_shape a = Z.to_nat (max_depth a) ->
  len p <= max_depth a ->
  init_node (QBT a) p
  = Return {| h := max_depth a - len p;
              branch_qa :=
                reversed p
                  ++ repeat 0 (Z.to_nat (max_depth a) - length p) |}.
Proof.
  intros Hshape Hlen. unfold init_node, fresh.
  cbn [attrs_of branch_qa].
  destruct (len p =? 0) eqn:E.
  - apply len_zero in E. subst p. simpl. rewrite Hshape, Nat.sub_0_r.
    reflexivity.
  - unfold assign_prefix, reversed.
    rewrite length_rev, repeat_length, Hshape.
    destruct (length p <=? Z.to_nat (max_depth a))%nat eqn:L.
    + simpl. rewrite skipn_repeat. reflexivity.
    + apply Nat.leb_gt in L. unfold len in Hlen. lia.
Qed.

(** X1: The path [init_node] wrote is the one [path_decoder] reads back,
    relative to the root of the tree it was written on. *)
Lemma init_node_decoded t p regs :
  init_node t p = Return regs ->
  path_decoder t (h regs) (branch_qa regs) = p.
Proof.
  unfold path_decoder.
  destruct t as [a | a root_path original_tree]; unfold init_node;
    unfold tree_max_depth; simpl attrs_of.
  - destruct (len p =? 0) eqn:E.
    + intros [= <-]. apply len_zero in E. subst p. simpl.
      replace (max_depth a - (max_depth a - len [])) with 0
        by (unfold len; simpl; lia).
      reflexivity.
    + unfold assign_prefix.
      destruct (_ <=? _)%nat; [| discriminate]. simpl. intros [= <-]. simpl.
      replace (max_depth a - (max_depth a - len p)) with (len p) by lia.
      rewrite slice_to_len. apply rev_involutive.
  - destruct (len (root_path ++ p) =? 0) eqn:E.
    + intros [= <-]. apply len_zero in E.
      apply app_eq_nil in E as [_ ->]. simpl.
      replace (max_depth a - (max_depth a - len [])) with 0
        by (unfold len; simpl; lia).
      reflexivity.
    + unfold assign_prefix.
      destruct (_ <=? _)%nat; [| discriminate]. simpl. intros [= <-]. simpl.
      replace (max_depth a - (max_depth a - len p)) with (len p) by lia.
      unfold reversed at 1. rewrite rev_app_distr, <- app_assoc.
      fold (reversed p). rewrite slice_to_len. apply rev_involutive.
Qed.

End Encoding.

Section Subtrees.

Context {predicate : Type}.
Implicit Types (t parent : Tree predicate) (a : attrs predicate)
         (p q root_path : list Z).

Lemma Subtree_init_Return parent root_path :
  len root_path <= tree_max_depth parent ->
  Subtree_init parent root_path
  = Return
      (Sub {| max_depth := tree_max_depth parent - len root_path;
              branch_size := branch_size (attrs_of parent);
              degree := 2 ^ branch_size (attrs_of parent);
              branch_qa_shape :=
                (Z.to_nat (tree_max_depth parent - len root_path)
                 + length root_path)%nat;
              h_size := Z.log2_up (tree_max_depth parent - len root_path + 2);
              accept_function := accept_function (attrs_of parent);
              reject_function := reject_function (attrs_of parent) |}
           root_path parent).
Proof.
  intros H. unfold Subtree_init.
  destruct (len root_path >? tree_max_depth parent) eqn:E;
    [apply Z.gtb_gt in E; lia | reflexivity].
Qed.

Lemma Subtree_init_Raise parent root_path :
  len root_path > tree_max_depth parent ->
  Subtree_init parent root_path = Raise SubtreeRootTooLong.
Proof.
  intros H. unfold Subtree_init.
  destruct (len root_path >? tree_max_depth parent) eqn:E;
    [reflexivity | rewrite Z.gtb_ltb in E; apply Z.ltb_ge in E; lia].
Qed.

Lemma Subtree_init_inv parent root_path t :
  Subtree_init parent root_path = Return t ->
  len root_path <= tree_max_depth parent.
Proof.
  unfold Subtree_init.
  destruct (len root_path >? tree_max_depth parent) eqn:E; [discriminate |].
  intros _. rewrite Z.gtb_ltb in E. apply Z.ltb_ge in E. exact E.
Qed.

(** C9: constructing a [Subtree] raises at once when
    [len(root_path) > parent.max_depth]; otherwise it succeeds and the
    tree built has [max_depth = parent.max_depth - len(root_path)]. *)
Theorem Subtree_init_guard parent root_path :
  (len root_path > tree_max_depth parent ->
   Subtree_init parent root_path = Raise SubtreeRootTooLong)
  /\ (len root_path <= tree_max_depth parent ->
      exists t, Subtree_init parent root_path = Return t
                /\ is_Subtree t = true
                /\ tree_max_depth t
                   = tree_max_depth parent - len root_path).
Proof.
  split.
  - apply Subtree_init_Raise.
  - intros H. eexists. split; [apply Subtree_init_Return; exact H |].
    split; reflexivity.
Qed.

(** [subtree] always ends in the constructor, called on the base tree
    with the absolute path. *)
Lemma subtree_absolute t p :
  subtree t p = Subtree_init (base_tree t) (absolute_root t ++ p).
Proof.
  revert p. induction t as [a | a root_path original_tree IH]; intros p.
  - reflexivity.
  - simpl. rewrite IH, app_assoc. reflexivity.
Qed.

(** C10: on a tree [t] that is not a [Subtree], [t.subtree(p).subtree(q)]
    with [len(p) + len(q) <= t.max_depth] is a [Subtree] with
    [original_tree] [t], [root_path] [p + q] and
    [max_depth = t.max_depth - len(p) - len(q)]. *)
Theorem subtree_subtree a p q :
  len p + len q <= max_depth a ->
  exists s a',
    subtree (QBT a) p = Return s
    /\ subtree s q = Return (Sub a' (p ++ q) (QBT a))
    /\ max_depth a' = max_depth a - len p - len q.
Proof.
  intros H. pose proof (len_nonneg p). pose proof (len_nonneg q).
  eexists. eexists. split; [| split].
  - simpl. apply Subtree_init_Return. unfold tree_max_depth. simpl. lia.
  - simpl. apply Subtree_init_Return. rewrite len_app.
    unfold tree_max_depth. simpl. lia.
  - simpl. rewrite len_app. unfold tree_max_depth. simpl. lia.
Qed.

(** Facts about constructed trees. *)
Lemma constructed_Sub_inv a root_path original_tree :
  constructed (Sub a root_path original_tree) ->
  constructed original_tree
  /\ len root_path <= tree_max_depth original_tree
  /\ max_depth a = tree_max_depth original_tree - len root_path
  /\ branch_qa_shape a
     = (Z.to_nat (max_depth a) + length root_path)%nat.
Proof.
  intros H. inversion H as [| parent rp t Hparent Hinit Heq]; subst.
  pose proof (Subtree_init_inv _ _ _ Hinit) as Hlen.
  rewrite (Subtree_init_Return _ _ Hlen) in Hinit.
  injection Hinit as <- <- <-. simpl. auto.
Qed.

Lemma constructed_QBT_inv a :
  constructed (QBT a) ->
  0 <= max_depth a /\ branch_qa_shape a = Z.to_nat (max_depth a).
Proof.
  intros H. inversion H as [md bs acc rej Hmd | parent rp t Hparent Hinit Heq];
    subst.
  - simpl. auto.
  - pose proof (Subtree_init_inv _ _ _ Hinit) as Hlen.
    rewrite (Subtree_init_Return _ _ Hlen) in Hinit. discriminate.
Qed.

Lemma constructed_depth t :
  constructed t ->
  0 <= tree_max_depth t
  /\ tree_max_depth t
     = tree_max_depth (base_tree t) - len (absolute_root t).
Proof.
  induction t as [a | a root_path original_tree IH]; intros H.
  - apply constructed_QBT_inv in H as [H _]. unfold tree_max_depth. simpl.
    unfold len. simpl. lia.
  - apply constructed_Sub_inv in H as (Horig & Hlen & Hmd & _).
    destruct (IH Horig) as [_ IH2]. unfold tree_max_depth in *. simpl.
    rewrite len_app. lia.
Qed.

Lemma constructed_subtree t p sub :
  constructed t -> subtree t p = Return sub -> constructed sub.
Proof.
  revert p. induction t as [a | a root_path original_tree IH]; intros p H.
  - simpl. intros Hs. econstructor; eassumption.
  - simpl. apply constructed_Sub_inv in H as (Horig & _). apply IH, Horig.
Qed.

End Subtrees.

Section SubtreeAddressing.

Context {predicate : Type}.
Implicit Types (t : Tree predicate) (a : attrs predicate)
         (p root_path : list Z).

Lemma init_node_Sub_registers a root_path (original_tree : Tree predicate) p :
  (length (root_path ++ p) <= branch_qa_shape a)%nat ->
  init_node (Sub a root_path original_tree) p
  = Return {| h := max_depth a - len p;
              branch_qa :=
                reversed (root_path ++ p)
                  ++ repeat 0 (branch_qa_shape a
                               - length (root_path ++ p)) |}.
Proof.
  intros Hlen. unfold init_node, fresh. cbn [attrs_of branch_qa].
  destruct (len (root_path ++ p) =? 0) eqn:E.
  - apply len_zero in E. rewrite E. simpl. rewrite Nat.sub_0_r. reflexivity.
  - unfold assign_prefix, reversed. rewrite length_rev, repeat_length.
    destruct (length (root_path ++ p) <=? branch_qa_shape a)%nat eqn:L.
    + simpl. rewrite skipn_repeat. reflexivity.
    + apply Nat.leb_gt in L. lia.
Qed.

Lemma registers_eq (h1 h2 : Z) (qa1 qa2 : list Z) :
  h1 = h2 -> qa1 = qa2 -> Registers h1 qa1 = Registers h2 qa2.
Proof. intros -> ->. reflexivity. Qed.

(** Equal registers measure equally: reduces both to the two fields. *)
Ltac same_registers :=
  match goal with
  | |- ?x = ?y /\ _ =>
      assert (E : x = y);
      [apply registers_eq; cbn [max_depth branch_qa_shape]
      | rewrite E; split; reflexivity]
  end.

(** The docstring example of [subtree]: in a tree of depth 5 the root of
    the subtree at [0, 1, 0] has height two. *)
Example subtree_docstring :
  bind (subtree (example_tree 5) [0; 1; 0]) (fun s => init_node s [])
  = Return {| h := 2; branch_qa := [0; 1; 0; 0; 0] |}.
Proof. reflexivity. Qed.

(** X18: subtree addressing where the code keeps it.  For every tree the
    constructors build whose original tree carries no root path (a base
    tree, a tree [subtree] returned, a copy of a base tree), and every path
    [p] with [len(p) <= max_depth], [tree.subtree(p).init_node([])] and
    [tree.init_node(p)] leave the same values in [h] and [branch_qa], hence
    the same measurement distribution. *)
Theorem subtree_init_node_same t p :
  constructed t ->
  inherited_root t = [] ->
  len p <= tree_max_depth t ->
  exists sub r1 r2,
    subtree t p = Return sub
    /\ init_node sub [] = Return r1
    /\ init_node t p = Return r2
    /\ r1 = r2
    /\ multi_measurement_basis r1 = multi_measurement_basis r2.
Proof.
  intros Hc Hinh Hlen. pose proof (len_nonneg p) as Hp.
  rewrite subtree_absolute.
  destruct t as [a | a root_path original_tree].
  - apply constructed_QBT_inv in Hc as [Hmd Hshape].
    unfold tree_max_depth in Hlen. simpl in Hlen.
    cbn [base_tree absolute_root app].
    do 3 eexists.
    split; [apply Subtree_init_Return; unfold tree_max_depth; simpl; lia |].
    split; [apply init_node_Sub_registers; cbn [branch_qa_shape];
            rewrite app_nil_r; lia |].
    split; [apply (init_node_QBT_registers a p Hshape Hlen) |].
    same_registers.
    + unfold tree_max_depth, len. simpl. lia.
    + rewrite app_nil_r. do 2 f_equal. unfold tree_max_depth, len in *.
      simpl. lia.
  - apply constructed_Sub_inv in Hc as (Horig & Hrp & Hmd & Hshape).
    destruct (constructed_depth _ Horig) as [_ Hbase].
    simpl in Hinh. rewrite Hinh in Hbase.
    unfold tree_max_depth in Hlen. simpl in Hlen.
    pose proof (len_nonneg root_path) as Hr.
    assert (Hd : tree_max_depth (base_tree original_tree)
                 = tree_max_depth original_tree)
      by (unfold len in Hbase; simpl in Hbase; lia).
    cbn [base_tree absolute_root]. rewrite Hinh. cbn [app].
    do 3 eexists.
    split; [apply Subtree_init_Return; rewrite len_app; lia |].
    split; [apply init_node_Sub_registers; cbn [branch_qa_shape];
            rewrite app_nil_r; lia |].
    split; [apply init_node_Sub_registers; rewrite Hshape, length_app;
            unfold len in *; lia |].
    same_registers.
    + rewrite Hd, len_app. unfold len in *. simpl. lia.
    + rewrite app_nil_r, Hshape, Hd, len_app. do 2 f_equal.
      rewrite length_app. unfold len in *. lia.
Qed.

End SubtreeAddressing.

Section WalkStep.

Context {predicate qubit : Type}.
Implicit Types (t : Tree predicate) (ctrl : list qubit).

(** [qstep_diffuser] looks at [even] only through its truth value. *)
Lemma qstep_diffuser_truthy t (even even' : value) ctrl :
  truthy even = truthy even' ->
  qstep_diffuser t even ctrl = qstep_diffuser t even' ctrl.
Proof.
  intros H. unfold qstep_diffuser, psi_prep. rewrite H. reflexivity.
Qed.

Lemma truthy_mod_2 (z : Z) : truthy (Int (z mod 2)) = Z.odd z.
Proof.
  simpl. rewrite Zmod_odd. destruct (Z.odd z); reflexivity.
Qed.

(** C6: [quantum_step(ctrl)] applies exactly two diffusers, first
    [qstep_diffuser] with [even] true exactly when [max_depth] is odd, then
    [qstep_diffuser] with [even] true exactly when [max_depth] is even, both
    with the same [ctrl]. *)
Theorem quantum_step_two_diffusers t ctrl :
  quantum_step t ctrl
  = qstep_diffuser t (Bool (Z.odd (tree_max_depth t))) ctrl
    ++ qstep_diffuser t (Bool (Z.even (tree_max_depth t))) ctrl.
Proof.
  unfold quantum_step. f_equal.
  - apply qstep_diffuser_truthy. apply truthy_mod_2.
  - apply qstep_diffuser_truthy. rewrite truthy_mod_2. simpl.
    apply Z.negb_odd.
Qed.

End WalkStep.

Section Sorting.

Context {A : Type} (key : A -> Z).

Lemma insert_by_Permutation (x : A) (xs : list A) :
  Permutation (insert_by key x xs) (x :: xs).
Proof.
  induction xs as [| y ys IH]; simpl.
  - reflexivity.
  - destruct (key x <=? key y).
    + reflexivity.
    + rewrite IH. apply perm_swap.
Qed.

Lemma sort_by_Permutation (xs : list A) : Permutation (sort_by key xs) xs.
Proof.
  induction xs as [| x xs IH]; simpl.
  - reflexivity.
  - rewrite insert_by_Permutation, IH. reflexivity.
Qed.

Lemma insert_by_sorted (x : A) (xs : list A) :
  StronglySorted (fun a b => key a <= key b) xs ->
  StronglySorted (fun a b => key a <= key b) (insert_by key x xs).
Proof.
  induction 1 as [| y ys Hs IH Hall]; simpl.
  - repeat constructor.
  - destruct (key x <=? key y) eqn:E.
    + apply Z.leb_le in E. constructor.
      * constructor; assumption.
      * constructor; [exact E |].
        eapply Forall_impl; [exact Hall |]. simpl. intros; lia.
    + apply Z.leb_gt in E. constructor; [exact IH |].
      rewrite insert_by_Permutation. constructor; [lia | exact Hall].
Qed.

Lemma sort_by_sorted (xs : list A) :
  StronglySorted (fun a b => key a <= key b) (sort_by key xs).
Proof.
  induction xs as [| x xs IH]; simpl.
  - constructor.
  - apply insert_by_sorted, IH.
Qed.

End Sorting.

(** ** Order on binary64 numbers *)

Section FloatOrder.

Lemma SFcompare_Lt_Gt (x y : spec_float) :
  SFcompare x y = Some Lt -> SFcompare y x = Some Gt.
Proof.
  destruct x as [sx | sx | | sx mx ex], y as [sy | sy | | sy my ey];
    simpl; try discriminate;
    try (destruct sx; discriminate || reflexivity);
    try (destruct sy; discriminate || reflexivity);
    try (destruct sx, sy; discriminate || reflexivity).
  destruct sx, sy; try discriminate; try reflexivity;
    rewrite (Z.compare_antisym ex ey);
    change (Pos.compare_cont Eq my mx) with (Pos.compare my mx);
    change (Pos.compare_cont Eq mx my) with (Pos.compare mx my);
    rewrite (Pos.compare_antisym mx my);
    destruct (ex ?= ey); simpl; try discriminate; try reflexivity;
    destruct (mx ?= my)%positive; simpl; discriminate || reflexivity.
Qed.

(** [x < y] excludes [y <= x], also when a NaN is about. *)
Lemma ltb_not_leb (x y : float) :
  (x <? y)%float = true -> (y <=? x)%float = false.
Proof.
  rewrite ltb_spec, leb_spec. unfold SFltb, SFleb.
  destruct (SFcompare (Prim2SF x) (Prim2SF y)) as [[| |] |] eqn:E;
    try discriminate.
  intros _. rewrite (SFcompare_Lt_Gt _ _ E). reflexivity.
Qed.

End FloatOrder.

Section Search.

Context {predicate kwargs : Type}.
Variable no_kwargs : kwargs.
Variable sample :
  Tree predicate -> registers -> Z -> kwargs -> nat -> list (outcome * float).
Variable accept_measurement :
  predicate -> Tree predicate -> registers -> gmap bool Q.
Variable precision : Z.

Implicit Types (tree sub : Tree predicate) (path new_path : list Z)
         (tr : list (list Z)) (cl : list Z -> result bool)
         (cl_accept : option (list Z -> result bool))
         (traversed_nodes : option (list (list Z))).

Local Abbreviation find := (find_solution no_kwargs sample accept_measurement).

(** The [cl_accept] a call works with. *)
Local Abbreviation resolved cl_accept tree :=
  (default (default_cl_accept accept_measurement tree) cl_accept).

(** The recursive call of the second loop. *)
Local Abbreviation recursion fuel cl :=
  (fun sub tr m => find fuel sub precision (Some cl) (Some tr) no_kwargs m).

Lemma skipped_spec path new_path tr :
  skipped path new_path tr = true
  <-> In (path ++ new_path) tr \/ new_path = [].
Proof.
  unfold skipped, contains. rewrite orb_true_iff, existsb_exists. split.
  - intros [(y & Hy & E) | E].
    + apply bool_decide_eq_true in E. subst y. left. exact Hy.
    + right. apply len_zero, E.
  - intros [H | ->].
    + left. exists (path ++ new_path). split; [exact H |].
      apply bool_decide_eq_true. reflexivity.
    + right. reflexivity.
Qed.

(** A prefix of the branches that yields no solution is passed over. *)
Lemma search_branches_exhausted recurse tree path done tr n tr' n' :
  exhausted recurse tree path done tr n tr' n' ->
  forall rest,
    search_branches recurse tree path (done ++ rest) tr n
    = search_branches recurse tree path rest tr' n'.
Proof.
  induction 1 as [tr n | b done tr n tr' n' Hskip _ IH
                 | b done sub tr n tr1 n1 tr' n' Hskip Hsub Hrec _ IH];
    intros rest.
  - reflexivity.
  - simpl. rewrite Hskip. apply IH.
  - simpl. rewrite Hskip, Hsub, Hrec. apply IH.
Qed.

Lemma search_branches_skip recurse tree path b rest tr n :
  skipped path (path_decoder tree (h_value b) (branch_values b)) tr = true ->
  search_branches recurse tree path (b :: rest) tr n
  = search_branches recurse tree path rest tr n.
Proof. intros H. simpl. rewrite H. reflexivity. Qed.

Lemma search_branches_found recurse tree path b rest tr n sub sol tr' n' :
  skipped path (path_decoder tree (h_value b) (branch_values b)) tr = false ->
  subtree tree (path_decoder tree (h_value b) (branch_values b))
  = Return sub ->
  recurse sub tr n = Some (Final (Return (Some sol)) tr' n') ->
  search_branches recurse tree path (b :: rest) tr n
  = Some (Final (Return
                   (Some (path
                            ++ path_decoder tree (h_value b) (branch_values b)
                            ++ sol)))
                tr' n').
Proof. intros H1 H2 H3. simpl. rewrite H1, H2, H3. reflexivity. Qed.

(** One unfolding of [find_solution] past the two checks on the root. *)
Lemma find_solution_sampling fuel tree cl_accept traversed_nodes kw n regs :
  resolved cl_accept tree (current_path tree) = Return false ->
  tree_max_depth tree <> 0 ->
  init_node tree [] = Return regs ->
  find (S fuel) tree precision cl_accept traversed_nodes kw n
  = let mes_res := sample tree regs precision kw n in
    if (zero_mass mes_res <=? 0.25)%float
    then Some (Final (Return None) (default [] traversed_nodes) (S n))
    else if (zero_mass mes_res <=? 0.375)%float
    then Some (Final (Raise InsufficientPrecision)
                     (default [] traversed_nodes) (S n))
    else search_branches (recursion fuel (resolved cl_accept tree))
                         tree (current_path tree)
                         (sort_by h_value (zero_branches mes_res))
                         (default [] traversed_nodes) (S n).
Proof.
  intros Hcl Hmd Hinit. apply Z.eqb_neq in Hmd.
  destruct cl_accept as [f |]; simpl in Hcl |- *;
    rewrite Hcl, Hmd, Hinit; reflexivity.
Qed.

Lemma find_solution_accepted fuel tree cl_accept traversed_nodes kw n :
  resolved cl_accept tree (current_path tree) = Return true ->
  find (S fuel) tree precision cl_accept traversed_nodes kw n
  = Some (Final (Return (Some [])) (default [] traversed_nodes) n).
Proof.
  intros Hcl. destruct cl_accept as [f |]; simpl in Hcl |- *;
    rewrite Hcl; reflexivity.
Qed.

Lemma find_solution_leaf fuel tree cl_accept traversed_nodes kw n :
  resolved cl_accept tree (current_path tree) = Return false ->
  tree_max_depth tree = 0 ->
  find (S fuel) tree precision cl_accept traversed_nodes kw n
  = Some (Final (Return None) (default [] traversed_nodes) n).
Proof.
  intros Hcl Hmd. apply Z.eqb_eq in Hmd.
  destruct cl_accept as [f |]; simpl in Hcl |- *;
    rewrite Hcl, Hmd; reflexivity.
Qed.

(** C4: if the classical accept predicate holds on the current root path
    ([tree.root_path] for a [Subtree], the empty path otherwise) the call
    returns the empty list and no sampling has been done; otherwise, if
    [tree.max_depth == 0], it returns [None]. *)
Theorem find_solution_root fuel tree cl_accept traversed_nodes kw n :
  (resolved cl_accept tree (current_path tree) = Return true ->
   find (S fuel) tree precision cl_accept traversed_nodes kw n
   = Some (Final (Return (Some [])) (default [] traversed_nodes) n))
  /\ (resolved cl_accept tree (current_path tree) = Return false ->
      tree_max_depth tree = 0 ->
      find (S fuel) tree precision cl_accept traversed_nodes kw n
      = Some (Final (Return None) (default [] traversed_nodes) n)).
Proof.
  split.
  - apply find_solution_accepted.
  - apply find_solution_leaf.
Qed.

(** C2: in a call that reaches the sampling step, with [s] the probability
    mass of the outcomes whose phase-estimation value is 0, as the code sums
    it: if [s <= 0.25] the call returns [None]; if [0.25 < s <= 0.375] it
    raises the insufficient-precision error; and it raises the same error
    when, both tests having failed, every candidate branch has been gone
    through without a solution. *)
Theorem find_solution_thresholds
        fuel tree cl_accept traversed_nodes kw n regs :
  let mes_res := sample tree regs precision kw n in
  let s := zero_mass mes_res in
  resolved cl_accept tree (current_path tree) = Return false ->
  tree_max_depth tree <> 0 ->
  init_node tree [] = Return regs ->
  ((s <=? 0.25)%float = true ->
   find (S fuel) tree precision cl_accept traversed_nodes kw n
   = Some (Final (Return None) (default [] traversed_nodes) (S n)))
  /\ ((0.25 <? s)%float = true -> (s <=? 0.375)%float = true ->
      find (S fuel) tree precision cl_accept traversed_nodes kw n
      = Some (Final (Raise InsufficientPrecision)
                    (default [] traversed_nodes) (S n)))
  /\ ((s <=? 0.25)%float = false -> (s <=? 0.375)%float = false ->
      forall tr' n',
        exhausted (recursion fuel (resolved cl_accept tree))
                  tree (current_path tree)
                  (sort_by h_value (zero_branches mes_res))
                  (default [] traversed_nodes) (S n) tr' n' ->
        find (S fuel) tree precision cl_accept traversed_nodes kw n
        = Some (Final (Raise InsufficientPrecision) tr' n')).
Proof.
  intros mes_res s Hcl Hmd Hinit.
  rewrite (find_solution_sampling _ _ _ _ _ _ _ Hcl Hmd Hinit).
  cbv zeta. fold mes_res. fold s.
  split; [| split].
  - intros Hs. rewrite Hs. reflexivity.
  - intros Hlo Hhi. rewrite (ltb_not_leb _ _ Hlo), Hhi. reflexivity.
  - intros Hlo Hhi tr' n' Hex. rewrite Hlo, Hhi.
    pose proof (search_branches_exhausted _ _ _ _ _ _ _ _ Hex []) as H.
    rewrite app_nil_r in H. rewrite H. reflexivity.
Qed.

(** C3: in a call that reaches the loop over the candidates (both tests on
    the mass having failed), the candidates, the outcomes with
    phase-estimation value 0, are
    gone through in ascending order of their sampled height; a candidate
    whose node is already in [traversed_nodes] or whose decoded relative path
    is empty is skipped; and at the first remaining candidate whose subtree
    search returns a solution the call returns
    [path + new_path + sub_sol]. *)
Theorem find_solution_candidates
        fuel tree cl_accept traversed_nodes kw n regs :
  let mes_res := sample tree regs precision kw n in
  let candidates := sort_by h_value (zero_branches mes_res) in
  let path := current_path tree in
  resolved cl_accept tree path = Return false ->
  tree_max_depth tree <> 0 ->
  init_node tree [] = Return regs ->
  (zero_mass mes_res <=? 0.25)%float = false ->
  (zero_mass mes_res <=? 0.375)%float = false ->
  StronglySorted (fun x y => h_value x <= h_value y) candidates
  /\ Permutation candidates (zero_branches mes_res)
  /\ forall done b rest tr1 n1,
      candidates = done ++ b :: rest ->
      exhausted (recursion fuel (resolved cl_accept tree)) tree path done
                (default [] traversed_nodes) (S n) tr1 n1 ->
      let new_path := path_decoder tree (h_value b) (branch_values b) in
      (In (path ++ new_path) tr1 \/ new_path = [] ->
       find (S fuel) tree precision cl_accept traversed_nodes kw n
       = search_branches (recursion fuel (resolved cl_accept tree))
                         tree path rest tr1 n1)
      /\ (~ (In (path ++ new_path) tr1 \/ new_path = []) ->
          forall sub sub_sol tr2 n2,
            subtree tree new_path = Return sub ->
            find fuel sub precision (Some (resolved cl_accept tree))
                 (Some tr1) no_kwargs n1
            = Some (Final (Return (Some sub_sol)) tr2 n2) ->
            find (S fuel) tree precision cl_accept traversed_nodes kw n
            = Some (Final (Return (Some (path ++ new_path ++ sub_sol)))
                          tr2 n2)).
Proof.
  intros mes_res candidates path Hcl Hmd Hinit Hlo Hhi.
  split; [apply sort_by_sorted |].
  split; [apply sort_by_Permutation |].
  intros done b rest tr1 n1 Hcands Hdone new_path.
  rewrite (find_solution_sampling _ _ _ _ _ _ _ Hcl Hmd Hinit).
  cbv zeta. fold mes_res. fold candidates. fold path.
  rewrite Hlo, Hhi.
  rewrite Hcands, (search_branches_exhausted _ _ _ _ _ _ _ _ Hdone).
  split.
  - intros Hskip. apply search_branches_skip, skipped_spec, Hskip.
  - intros Hskip sub sub_sol tr2 n2 Hsub Hrec.
    apply search_branches_found with (sub := sub); [| exact Hsub | exact Hrec].
    apply not_true_iff_false. intros E. apply Hskip, skipped_spec, E.
Qed.

Lemma eq_true_one_spec (d : gmap bool Q) :
  eq_true_one d = true <-> exists v, d = {[ true := v ]} /\ (v == 1)%Q.
Proof.
  unfold eq_true_one. split.
  - destruct (d !! true) as [v |] eqn:Et; [| discriminate].
    destruct (d !! false) eqn:Ef; [discriminate |].
    intros H. apply Qeq_bool_iff in H. exists v. split; [| exact H].
    apply map_eq. intros [|].
    + rewrite lookup_singleton_eq. exact Et.
    + rewrite lookup_singleton_ne by discriminate. exact Ef.
  - intros (v & -> & Hv).
    rewrite lookup_singleton_eq, lookup_singleton_ne by discriminate.
    apply Qeq_bool_iff, Hv.
Qed.

(** C8: without a classical accept function, [find_solution] works with
    the default [cl_accept], which for a candidate path makes a fresh copy of
    the tree (of the original tree, for a [Subtree]), initialises the node on
    it, measures the quantum [accept] on the simulator, and returns [True]
    exactly when the distribution is [{True: 1}]. *)
Theorem default_cl_accept_spec tree path copied_tree regs :
  copy (match tree with
        | Sub _ _ original_tree => original_tree
        | QBT _ => tree
        end) = Return copied_tree ->
  init_node copied_tree path = Return regs ->
  let mes_res :=
    accept_measurement (accept_function (attrs_of copied_tree))
                       copied_tree regs in
  (forall fuel traversed_nodes kw n,
      find fuel tree precision None traversed_nodes kw n
      = find fuel tree precision
             (Some (default_cl_accept accept_measurement tree))
             traversed_nodes kw n)
  /\ exists b,
      default_cl_accept accept_measurement tree path = Return b
      /\ (b = true <-> exists v, mes_res = {[ true := v ]} /\ (v == 1)%Q).
Proof.
  intros Hcopy Hinit mes_res. split.
  - intros [| fuel]; reflexivity.
  - exists (eq_true_one mes_res). split; [| apply eq_true_one_spec].
    unfold default_cl_accept.
    destruct tree as [a | a root_path original_tree];
      rewrite Hcopy; simpl; rewrite Hinit; reflexivity.
Qed.

(** ** Termination: the depth of the tree bounds the recursion *)

Lemma subtree_max_depth tree new_path sub :
  constructed tree ->
  subtree tree new_path = Return sub ->
  tree_max_depth sub = tree_max_depth tree - len new_path.
Proof.
  intros Hc. rewrite subtree_absolute. intros Hs.
  pose proof (Subtree_init_inv _ _ _ Hs) as Hlen.
  rewrite (Subtree_init_Return _ _ Hlen) in Hs. injection Hs as <-.
  destruct (constructed_depth _ Hc) as [_ Hd].
  unfold tree_max_depth at 1. simpl. rewrite len_app. lia.
Qed.

Lemma init_node_root tree :
  constructed tree -> exists regs, init_node tree [] = Return regs.
Proof.
  destruct tree as [a | a root_path original_tree]; intros Hc.
  - eexists. reflexivity.
  - apply constructed_Sub_inv in Hc as (_ & _ & _ & Hshape).
    eexists. apply init_node_Sub_registers. rewrite app_nil_r. lia.
Qed.

Lemma search_branches_total recurse tree path new_branches :
  (forall b sub tr n,
      skipped path (path_decoder tree (h_value b) (branch_values b)) tr
      = false ->
      subtree tree (path_decoder tree (h_value b) (branch_values b))
      = Return sub ->
      exists r, recurse sub tr n = Some r) ->
  forall tr n,
  exists r, search_branches recurse tree path new_branches tr n = Some r.
Proof.
  intros Hrec. induction new_branches as [| b rest IH]; intros tr n; simpl.
  - eauto.
  - destruct (skipped path _ tr) eqn:Hskip; [apply IH |].
    destruct (subtree tree _) as [sub | e] eqn:Hsub; [| eauto].
    destruct (Hrec b sub tr n Hskip Hsub) as [[[[sol |] | e] tr' n'] ->];
      eauto.
Qed.

(** X9: [find_solution] terminates: on a tree the constructors built the
    recursion is at most [max_depth + 1] calls deep, so with more fuel than
    the tree is deep the search returns or raises. *)
Lemma find_solution_total fuel :
  forall tree cl_accept traversed_nodes kw n,
    constructed tree ->
    (Z.to_nat (tree_max_depth tree) < fuel)%nat ->
    exists r, find fuel tree precision cl_accept traversed_nodes kw n = Some r.
Proof.
  induction fuel as [| fuel IH];
    intros tree cl_accept traversed_nodes kw n Hc Hfuel; [lia |].
  destruct (resolved cl_accept tree (current_path tree)) as [[|] | e] eqn:Hcl.
  - eexists. apply find_solution_accepted, Hcl.
  - destruct (Z.eq_dec (tree_max_depth tree) 0) as [Hmd | Hmd].
    + eexists. apply find_solution_leaf; assumption.
    + destruct (init_node_root _ Hc) as [regs Hinit].
      rewrite (find_solution_sampling _ _ _ _ _ _ _ Hcl Hmd Hinit). cbv zeta.
      destruct (_ <=? 0.25)%float; [eauto |].
      destruct (_ <=? 0.375)%float; [eauto |].
      apply search_branches_total. intros b sub tr m Hskip Hsub.
      apply IH; [eapply constructed_subtree; eassumption |].
      pose proof (subtree_max_depth _ _ _ Hc Hsub) as Hd.
      destruct (constructed_depth _ (constructed_subtree _ _ _ Hc Hsub))
        as [Hpos _].
      unfold skipped in Hskip. apply orb_false_iff in Hskip as [_ Hne].
      apply Z.eqb_neq in Hne.
      pose proof (len_nonneg (path_decoder tree (h_value b) (branch_values b))).
      lia.
  - eexists. destruct cl_accept as [f |]; simpl in Hcl |- *;
      rewrite Hcl; reflexivity.
Qed.

End Search.

(** * The properties at concrete inputs *)

(** The search of the example tree of depth 2 finds the marked node: the
    candidate [0, 0] is tried first and gives nothing, [1, 0] is next. *)
Example example_find_solution :
  example_find 3%nat (example_tree 2) 5 (Some example_cl_accept) None tt 0%nat
  = Some (Final (Return (Some [1; 0])) [[0; 0]] 1%nat).
Proof. vm_compute. reflexivity. Qed.

(** With the default [cl_accept] the same search ends at the first node of
    height 0. *)
Example example_find_solution_default :
  example_find 3%nat (example_tree 2) 5 None None tt 0%nat
  = Some (Final (Return (Some [0; 0])) [] 1%nat).
Proof. vm_compute. reflexivity. Qed.

Lemma path_decoder_roundtrip_witness :
  path_decoder (example_tree 5) (5 - 2) ([0; 1] ++ [0; 0; 0]) = [1; 0].
Proof.
  apply (path_decoder_roundtrip (example_tree 5) [1; 0]).
  vm_compute. discriminate.
Defined.

Lemma Subtree_init_guard_witness :
  Subtree_init (example_tree 2) [1; 0; 1] = Raise SubtreeRootTooLong
  /\ exists t, Subtree_init (example_tree 2) [1; 0] = Return t
               /\ is_Subtree t = true
               /\ tree_max_depth t = tree_max_depth (example_tree 2) - len [1; 0].
Proof.
  split.
  - apply (proj1 (Subtree_init_guard (example_tree 2) [1; 0; 1])).
    vm_compute. reflexivity.
  - apply (proj2 (Subtree_init_guard (example_tree 2) [1; 0])).
    vm_compute. discriminate.
Defined.

Lemma subtree_subtree_witness :
  exists s a',
    subtree (example_tree 3) [1] = Return s
    /\ subtree s [0] = Return (Sub a' ([1] ++ [0]) (example_tree 3))
    /\ max_depth a' = 3 - len [1] - len [0].
Proof.
  apply (subtree_subtree (QuantumBacktrackingTree_init 3 1 tt tt) [1] [0]).
  vm_compute. discriminate.
Defined.

Lemma constructed_example_tree (md : Z) :
  0 <= md -> constructed (example_tree md).
Proof. intros H. apply constructed_QBT, H. Defined.

Lemma subtree_init_node_same_witness :
  exists sub r1 r2,
    subtree (example_sub (example_tree 3) [1]) [0] = Return sub
    /\ init_node sub [] = Return r1
    /\ init_node (example_sub (example_tree 3) [1]) [0] = Return r2
    /\ r1 = r2
    /\ multi_measurement_basis r1 = multi_measurement_basis r2.
Proof.
  apply (subtree_init_node_same (example_sub (example_tree 3) [1]) [0]).
  - apply (constructed_Sub (example_tree 3) [1] _).
    + apply constructed_example_tree. lia.
    + reflexivity.
  - reflexivity.
  - vm_compute. discriminate.
Defined.

(** C5: the code breaks the claim on the copy of a subtree with a root
    path.  [copy], which [Subtree] inherits, builds [Subtree(self, [])]: the
    copy has no root path and no embedding array, while its [subtree] still
    goes through [original_tree] and puts the root path back.  In a tree of
    depth 3, the copy of the subtree at [1] initialises the node [1] as
    [h = 1, branch_qa = [1, 0]], while its subtree at [1] is the subtree of
    the original tree at [1, 1], whose root is
    [h = 1, branch_qa = [1, 1, 0]]: two different measurement
    distributions. *)
Lemma subtree_init_node_copy_differs :
  let t := example_sub (example_sub (example_tree 3) [1]) [] in
  constructed t
  /\ copy (example_sub (example_tree 3) [1]) = Return t
  /\ len [1] <= tree_max_depth t
  /\ exists sub,
      subtree t [1] = Return sub
      /\ init_node sub [] = Return {| h := 1; branch_qa := [1; 1; 0] |}
      /\ init_node t [1] = Return {| h := 1; branch_qa := [1; 0] |}
      /\ multi_measurement_basis {| h := 1; branch_qa := [1; 1; 0] |}
         <> multi_measurement_basis {| h := 1; branch_qa := [1; 0] |}.
Proof.
  split; [| split; [| split]].
  - apply (constructed_Sub (example_sub (example_tree 3) [1]) [] _);
      [| reflexivity].
    apply (constructed_Sub (example_tree 3) [1] _); [| reflexivity].
    apply constructed_example_tree. lia.
  - reflexivity.
  - vm_compute. discriminate.
  - eexists. split; [reflexivity |]. split; [reflexivity |].
    split; [reflexivity |]. discriminate.
Qed.

Lemma quantum_step_two_diffusers_witness :
  quantum_step (example_tree 3) [7%nat]
  = qstep_diffuser (example_tree 3) (Bool true) [7%nat]
    ++ qstep_diffuser (example_tree 3) (Bool false) [7%nat].
Proof. apply (quantum_step_two_diffusers (example_tree 3) [7%nat]). Defined.

Lemma find_solution_root_witness :
  example_find 1%nat (example_sub (example_tree 2) [1; 0]) 5
               (Some example_cl_accept) None tt 0%nat
  = Some (Final (Return (Some [])) [] 0%nat)
  /\ example_find 1%nat (example_tree 0) 5 (Some example_cl_accept)
                  (Some [[0]]) tt 0%nat
     = Some (Final (Return None) [[0]] 0%nat).
Proof.
  split.
  - apply (proj1 (find_solution_root
                    tt example_sample example_accept_measurement 5 0%nat
                    (example_sub (example_tree 2) [1; 0])
                    (Some example_cl_accept) None tt 0%nat)).
    reflexivity.
  - apply (proj2 (find_solution_root
                    tt example_sample example_accept_measurement 5 0%nat
                    (example_tree 0) (Some example_cl_accept)
                    (Some [[0]]) tt 0%nat)).
    + reflexivity.
    + reflexivity.
Defined.

Lemma find_solution_thresholds_witness :
  example_find 1%nat (example_tree 2) 1 (Some example_cl_reject_all)
               None tt 0%nat
  = Some (Final (Return None) [] 1%nat)
  /\ example_find 1%nat (example_tree 2) 2 (Some example_cl_reject_all)
                  None tt 0%nat
     = Some (Final (Raise InsufficientPrecision) [] 1%nat)
  /\ example_find 2%nat (example_tree 2) 5 (Some example_cl_reject_all)
                  None tt 0%nat
     = Some (Final (Raise InsufficientPrecision) [[0; 0]; [1; 0]] 1%nat).
Proof.
  split; [| split].
  - apply (proj1 (find_solution_thresholds
                    tt example_sample example_accept_measurement 1 0%nat
                    (example_tree 2) (Some example_cl_reject_all) None tt
                    0%nat {| h := 2; branch_qa := [0; 0] |}
                    eq_refl ltac:(vm_compute; discriminate) eq_refl)).
    vm_compute. reflexivity.
  - apply (proj1 (proj2 (find_solution_thresholds
                    tt example_sample example_accept_measurement 2 0%nat
                    (example_tree 2) (Some example_cl_reject_all) None tt
                    0%nat {| h := 2; branch_qa := [0; 0] |}
                    eq_refl ltac:(vm_compute; discriminate) eq_refl))).
    + vm_compute. reflexivity.
    + vm_compute. reflexivity.
  - apply (proj2 (proj2 (find_solution_thresholds
                    tt example_sample example_accept_measurement 5 1%nat
                    (example_tree 2) (Some example_cl_reject_all) None tt
                    0%nat {| h := 2; branch_qa := [0; 0] |}
                    eq_refl ltac:(vm_compute; discriminate) eq_refl))).
    + vm_compute. reflexivity.
    + vm_compute. reflexivity.
    + eapply exhausted_tried; [reflexivity | reflexivity | reflexivity |].
      eapply exhausted_tried; [reflexivity | reflexivity | reflexivity |].
      eapply exhausted_skip; [reflexivity |].
      apply exhausted_nil.
Defined.

Lemma find_solution_candidates_witness :
  example_find 2%nat (example_tree 2) 5 (Some example_cl_accept) None tt 0%nat
  = Some (Final (Return (Some ([] ++ [1; 0] ++ []))) [[0; 0]] 1%nat)
  /\ example_find 2%nat (example_tree 2) 5 (Some example_cl_reject_all)
                  None tt 0%nat
     = search_branches
         (fun sub tr m =>
            example_find 1%nat sub 5 (Some example_cl_reject_all) (Some tr)
                         tt m)
         (example_tree 2) [] [] [[0; 0]; [1; 0]] 1%nat.
Proof.
  split.
  - pose proof (find_solution_candidates
                  tt example_sample example_accept_measurement 5 1%nat
                  (example_tree 2) (Some example_cl_accept) None tt 0%nat
                  {| h := 2; branch_qa := [0; 0] |}
                  eq_refl ltac:(vm_compute; discriminate) eq_refl
                  ltac:(vm_compute; reflexivity)
                  ltac:(vm_compute; reflexivity)) as (_ & _ & T).
    refine (proj2 (T [Outcome 0 0 [0; 0]] (Outcome 0 0 [0; 1])
                     [Outcome 0 2 [0; 0]] [[0; 0]] 1%nat eq_refl _)
                  _ (example_sub (example_tree 2) [1; 0]) [] [[0; 0]] 1%nat
                  eq_refl eq_refl).
    + eapply exhausted_tried; [reflexivity | reflexivity | reflexivity |].
      apply exhausted_nil.
    + vm_compute. intros [[H | []] | H]; discriminate.
  - pose proof (find_solution_candidates
                  tt example_sample example_accept_measurement 5 1%nat
                  (example_tree 2) (Some example_cl_reject_all) None tt 0%nat
                  {| h := 2; branch_qa := [0; 0] |}
                  eq_refl ltac:(vm_compute; discriminate) eq_refl
                  ltac:(vm_compute; reflexivity)
                  ltac:(vm_compute; reflexivity)) as (_ & _ & T).
    refine (proj1 (T [Outcome 0 0 [0; 0]; Outcome 0 0 [0; 1]]
                     (Outcome 0 2 [0; 0]) [] [[0; 0]; [1; 0]] 1%nat
                     eq_refl _) _).
    + eapply exhausted_tried; [reflexivity | reflexivity | reflexivity |].
      eapply exhausted_tried; [reflexivity | reflexivity | reflexivity |].
      apply exhausted_nil.
    + right. reflexivity.
Defined.

Lemma default_cl_accept_spec_witness :
  exists b,
    default_cl_accept example_accept_measurement (example_tree 2) [1; 0]
    = Return b
    /\ (b = true
        <-> exists v,
            example_accept_measurement
              tt (example_sub (example_tree 2) [])
              {| h := 0; branch_qa := [0; 1] |}
            = {[ true := v ]} /\ (v == 1)%Q).
Proof.
  apply (proj2 (default_cl_accept_spec
                  tt example_sample example_accept_measurement 5
                  (example_tree 2) [1; 0]
                  (example_sub (example_tree 2) [])
                  {| h := 0; branch_qa := [0; 1] |} eq_refl eq_refl)).
Defined.

(** * Further properties of the encoding and of subtrees *)

Section MoreSubtrees.

Context {predicate : Type}.
Implicit Types (t sub : Tree predicate) (a : attrs predicate)
         (p q root_path : list Z).

Lemma base_tree_QBT t : exists a, base_tree t = QBT a.
Proof.
  induction t as [a | a root_path original_tree IH]; simpl; eauto.
Qed.

Lemma constructed_shape t :
  constructed t ->
  branch_qa_shape (attrs_of t)
  = (Z.to_nat (tree_max_depth t) + length (current_path t))%nat.
Proof.
  destruct t as [a | a root_path original_tree]; intros Hc.
  - apply constructed_QBT_inv in Hc as [_ Hs]. unfold tree_max_depth. simpl.
    lia.
  - apply constructed_Sub_inv in Hc as (_ & _ & _ & Hs). exact Hs.
Qed.

Lemma init_node_registers t p :
  (length (current_path t ++ p) <= branch_qa_shape (attrs_of t))%nat ->
  init_node t p
  = Return {| h := tree_max_depth t - len p;
              branch_qa :=
                reversed (current_path t ++ p)
                  ++ repeat 0 (branch_qa_shape (attrs_of t)
                               - length (current_path t ++ p)) |}.
Proof.
  destruct t as [a | a root_path original_tree]; intros Hlen.
  - simpl in Hlen |- *. unfold fresh. cbn [attrs_of branch_qa].
    destruct (len p =? 0) eqn:E.
    + apply len_zero in E. subst p. simpl. rewrite Nat.sub_0_r. reflexivity.
    + unfold assign_prefix, reversed. rewrite length_rev, repeat_length.
      destruct (length p <=? branch_qa_shape a)%nat eqn:L.
      * simpl. rewrite skipn_repeat. reflexivity.
      * apply Nat.leb_gt in L. lia.
  - apply init_node_Sub_registers, Hlen.
Qed.

(** X2: After [init_node(path)] on a tree the constructors built, with
    [len(path) <= max_depth]: [h] is the height of the node, between 0 and
    [max_depth]; [branch_qa] keeps its shape, starts with the reversed path
    from the root of the base tree, and is zero from there on. *)
Theorem init_node_algorithmic t p :
  constructed t ->
  len p <= tree_max_depth t ->
  exists regs,
    init_node t p = Return regs
    /\ h regs = tree_max_depth t - len p
    /\ 0 <= h regs <= tree_max_depth t
    /\ length (branch_qa regs) = branch_qa_shape (attrs_of t)
    /\ firstn (length (current_path t ++ p)) (branch_qa regs)
       = reversed (current_path t ++ p)
    /\ Forall (fun v => v = 0)
              (skipn (length (current_path t ++ p)) (branch_qa regs)).
Proof.
  intros Hc Hlen. pose proof (constructed_shape t Hc) as Hs.
  pose proof (len_nonneg p) as Hp.
  assert (Hfit : (length (current_path t ++ p)
                  <= branch_qa_shape (attrs_of t))%nat)
    by (rewrite Hs, length_app; unfold len in *; lia).
  eexists. split; [apply init_node_registers, Hfit |]. cbn [h branch_qa].
  split; [reflexivity |]. split; [lia |]. split.
  - rewrite length_app, repeat_length. unfold reversed. rewrite length_rev.
    lia.
  - split.
    + apply firstn_reversed_app.
    + rewrite <- (length_rev (current_path t ++ p)).
      fold (reversed (current_path t ++ p)).
      rewrite drop_app_length. apply List.Forall_forall. intros v Hv.
      apply repeat_spec in Hv. exact Hv.
Qed.

(** X3: Taking subtrees composes: on the subtree at [p], the subtree at [q] is
    what the tree itself gives for [p + q], the same tree or the same
    exception. *)
Theorem subtree_compose t p q sub :
  subtree t p = Return sub ->
  subtree sub q = subtree t (p ++ q).
Proof.
  rewrite !subtree_absolute. intros Hs.
  pose proof (Subtree_init_inv _ _ _ Hs) as Hlen.
  rewrite (Subtree_init_Return _ _ Hlen) in Hs. injection Hs as <-.
  destruct (base_tree_QBT t) as [a0 Ha0]. rewrite Ha0. simpl.
  rewrite app_assoc. reflexivity.
Qed.

Lemma subtree_returns t p :
  constructed t ->
  len p <= tree_max_depth t ->
  exists sub, subtree t p = Return sub.
Proof.
  intros Hc Hlen. destruct (constructed_depth _ Hc) as [_ Hd].
  rewrite subtree_absolute. eexists. apply Subtree_init_Return.
  rewrite len_app. lia.
Qed.

Lemma path_decoder_len t (hv : Z) (qa : list Z) :
  hv <= tree_max_depth t ->
  len (path_decoder t hv qa) = Z.min (tree_max_depth t - hv) (len qa).
Proof.
  intros Hh. unfold path_decoder, slice_to, reversed.
  destruct (0 <=? tree_max_depth t - hv) eqn:E; [| apply Z.leb_gt in E; lia].
  unfold len. rewrite length_rev, length_firstn. lia.
Qed.

(** X4: [subtree(path)] on any tree the constructors built: it raises, with the
    root-path exception, exactly when [len(path) > max_depth]; otherwise the
    subtree has depth [max_depth - len(path)], its original tree is the base
    tree at the end of the chain of original trees (a tree that is not a
    [Subtree]), and its root path is the path from the root of that base
    tree. *)
Theorem subtree_constructed t p :
  constructed t ->
  match subtree t p with
  | Return sub =>
      len p <= tree_max_depth t
      /\ tree_max_depth sub = tree_max_depth t - len p
      /\ (exists a', sub = Sub a' (absolute_root t ++ p) (base_tree t))
      /\ is_Subtree (base_tree t) = false
      /\ current_path sub = absolute_root t ++ p
      /\ inherited_root sub = []
      /\ constructed sub
  | Raise e => e = SubtreeRootTooLong /\ tree_max_depth t < len p
  end.
Proof.
  intros Hc. destruct (constructed_depth _ Hc) as [_ Hd].
  destruct (subtree t p) as [sub | e] eqn:Hs.
  - pose proof (constructed_subtree _ _ _ Hc Hs) as Hcs.
    rewrite subtree_absolute in Hs.
    pose proof (Subtree_init_inv _ _ _ Hs) as Hlen.
    rewrite (Subtree_init_Return _ _ Hlen) in Hs. injection Hs as <-.
    rewrite len_app in Hlen.
    destruct (base_tree_QBT t) as [a0 Ha0].
    split; [lia |]. split; [unfold tree_max_depth at 1; simpl;
                            rewrite len_app; lia |].
    split; [eexists; reflexivity |].
    split; [rewrite Ha0; reflexivity |].
    split; [reflexivity |]. split; [| exact Hcs].
    simpl. rewrite Ha0. reflexivity.
  - rewrite subtree_absolute in Hs.
    destruct (Z_le_gt_dec (len (absolute_root t ++ p))
                          (tree_max_depth (base_tree t))) as [Hle | Hgt].
    + rewrite (Subtree_init_Return _ _ Hle) in Hs. discriminate.
    + rewrite (Subtree_init_Raise _ _ Hgt) in Hs. injection Hs as <-.
      rewrite len_app in Hgt. split; [reflexivity | lia].
Qed.

(** X5: The copy of a tree that has no root path (a base tree, or the copy of
    one) encodes every node as the tree does: [init_node] gives the same
    registers, or fails alike. *)
Theorem copy_init_node t :
  constructed t ->
  current_path t = [] ->
  exists copied_tree,
    copy t = Return copied_tree
    /\ tree_max_depth copied_tree = tree_max_depth t
    /\ forall p, init_node copied_tree p = init_node t p.
Proof.
  intros Hc Hroot. destruct (constructed_depth _ Hc) as [Hpos _].
  pose proof (constructed_shape t Hc) as Hs. rewrite Hroot in Hs.
  simpl in Hs. rewrite Nat.add_0_r in Hs.
  unfold copy. rewrite Subtree_init_Return by (unfold len; simpl; lia).
  eexists. split; [reflexivity |].
  split; [unfold tree_max_depth at 1, len; simpl; lia |].
  intros p.
  assert (Hmd : tree_max_depth t - len (@nil Z) = tree_max_depth t)
    by (unfold len; simpl; lia).
  destruct t as [a | a root_path original_tree]; simpl in Hroot.
  - unfold init_node, fresh. cbn [attrs_of max_depth branch_qa_shape app].
    rewrite Hmd. unfold tree_max_depth in *. simpl in Hs |- *.
    rewrite Hs, Nat.add_0_r. reflexivity.
  - subst root_path.
    unfold init_node, fresh. cbn [attrs_of max_depth branch_qa_shape app].
    rewrite Hmd. unfold tree_max_depth in *. simpl in Hs |- *.
    rewrite Hs, Nat.add_0_r. reflexivity.
Qed.

(** X7: For a height up to [max_depth], [path_decoder] returns a path of
    [min(max_depth - h, len(branch_qa))] branches, the last branch first in
    [branch_qa]; the root height decodes to the empty path whatever
    [branch_qa] holds. *)
Theorem path_decoder_length t (hv : Z) (qa : list Z) :
  hv <= tree_max_depth t ->
  len (path_decoder t hv qa) = Z.min (tree_max_depth t - hv) (len qa)
  /\ path_decoder t hv qa
     = reversed (firstn (Z.to_nat (tree_max_depth t - hv)) qa)
  /\ (hv = tree_max_depth t -> path_decoder t hv qa = []).
Proof.
  intros Hh. split; [apply path_decoder_len, Hh |].
  unfold path_decoder, slice_to.
  destruct (0 <=? tree_max_depth t - hv) eqn:E; [| apply Z.leb_gt in E; lia].
  split; [reflexivity |].
  intros ->. rewrite Z.sub_diag. reflexivity.
Qed.

(** X8: A candidate decoded from a height between 0 and [max_depth] always has
    a subtree: the constructor does not raise, and the subtree is at least
    as deep as the height says. *)
Theorem subtree_of_decoded t (hv : Z) (qa : list Z) :
  constructed t ->
  0 <= hv <= tree_max_depth t ->
  exists sub,
    subtree t (path_decoder t hv qa) = Return sub
    /\ constructed sub
    /\ hv <= tree_max_depth sub <= tree_max_depth t.
Proof.
  intros Hc Hh.
  pose proof (path_decoder_len t hv qa (proj2 Hh)) as Hlen.
  pose proof (len_nonneg qa) as Hqa.
  destruct (subtree_returns t (path_decoder t hv qa) Hc) as [sub Hs]; [lia |].
  exists sub. split; [exact Hs |].
  split; [eapply constructed_subtree; eassumption |].
  rewrite (subtree_max_depth _ _ _ Hc Hs). lia.
Qed.

End MoreSubtrees.

(** * Further properties of the search *)

Section MoreSearch.

Context {predicate kwargs : Type}.
Variable no_kwargs : kwargs.
Variable sample :
  Tree predicate -> registers -> Z -> kwargs -> nat -> list (outcome * float).
Variable accept_measurement :
  predicate -> Tree predicate -> registers -> gmap bool Q.
Variable precision : Z.

Implicit Types (tree sub : Tree predicate) (path new_path : list Z)
         (tr : list (list Z)) (cl : list Z -> result bool)
         (cl_accept : option (list Z -> result bool))
         (traversed_nodes : option (list (list Z))).

Local Abbreviation find :=
  (find_solution no_kwargs sample accept_measurement).

Local Abbreviation resolved cl_accept tree :=
  (default (default_cl_accept accept_measurement tree) cl_accept).

Local Abbreviation recursion fuel cl :=
  (fun sub tr m => find fuel sub precision (Some cl) (Some tr) no_kwargs m).

(** One unfolding of [find_solution], whatever the call does. *)
Lemma find_solution_step fuel tree cl_accept traversed_nodes kw n :
  find (S fuel) tree precision cl_accept traversed_nodes kw n
  = match resolved cl_accept tree (current_path tree) with
    | Raise e => Some (Final (Raise e) (default [] traversed_nodes) n)
    | Return true =>
        Some (Final (Return (Some [])) (default [] traversed_nodes) n)
    | Return false =>
        if tree_max_depth tree =? 0
        then Some (Final (Return None) (default [] traversed_nodes) n)
        else
          match init_node tree [] with
          | Raise e => Some (Final (Raise e) (default [] traversed_nodes) n)
          | Return regs =>
              let mes_res := sample tree regs precision kw n in
              if (zero_mass mes_res <=? 0.25)%float
              then Some (Final (Return None)
                               (default [] traversed_nodes) (S n))
              else if (zero_mass mes_res <=? 0.375)%float
              then Some (Final (Raise InsufficientPrecision)
                               (default [] traversed_nodes) (S n))
              else search_branches
                     (recursion fuel (resolved cl_accept tree))
                     tree (current_path tree)
                     (sort_by h_value (zero_branches mes_res))
                     (default [] traversed_nodes) (S n)
          end
    end.
Proof. destruct cl_accept as [f |]; reflexivity. Qed.

Lemma In_candidates (mes_res : list (outcome * float)) (b : outcome) :
  In b (sort_by h_value (zero_branches mes_res)) ->
  exists pr, In (b, pr) mes_res /\ Qeq_bool (qpe_value b) 0 = true.
Proof.
  intros Hb. apply (Permutation_in _ (sort_by_Permutation h_value _)) in Hb.
  unfold zero_branches in Hb. apply in_map_iff in Hb as ([o pr] & <- & Hin).
  apply list_elem_of_In, list_elem_of_filter in Hin as [Hz Hin].
  exists pr. split; [apply list_elem_of_In, Hin |].
  apply Is_true_true, Hz.
Qed.

(** ** The list of traversed nodes only grows *)

Lemma search_branches_grows recurse tree path new_branches :
  (forall sub tr n r,
      recurse sub tr n = Some r ->
      (exists added, traversed_of r = tr ++ added)
      /\ (n <= samplings_of r)%nat) ->
  forall tr n r,
    search_branches recurse tree path new_branches tr n = Some r ->
    (exists added, traversed_of r = tr ++ added)
    /\ (n <= samplings_of r)%nat.
Proof.
  intros Hrec. induction new_branches as [| b rest IH]; intros tr n r; simpl.
  - intros [= <-]. simpl. split; [exists []; rewrite app_nil_r |]; auto.
  - destruct (skipped path _ tr); [apply IH |].
    destruct (subtree tree _) as [sub | e].
    + destruct (recurse sub tr n) as [[[[sol |] | e] tr1 n1] |] eqn:Hr;
        [| | | discriminate];
        destruct (Hrec _ _ _ _ Hr) as [[added Ha] Hn]; simpl in Ha, Hn.
      * intros [= <-]. simpl. eauto.
      * intros H. apply IH in H as [[added' Ha'] Hn']. split; [| lia].
        exists (added ++ [path ++ path_decoder tree (h_value b)
                                               (branch_values b)] ++ added').
        rewrite Ha', Ha, <- !app_assoc. reflexivity.
      * intros [= <-]. simpl. eauto.
    + intros [= <-]. simpl. split; [exists []; rewrite app_nil_r |]; auto.
Qed.

(** X10: A call never removes or reorders what the caller's [traversed_nodes]
    held: the list it leaves starts with the list it was given.  Nor does
    the count of samplings go down. *)
Theorem find_solution_grows fuel :
  forall tree cl_accept traversed_nodes kw n r,
    find_solution no_kwargs sample accept_measurement
                  fuel tree precision cl_accept traversed_nodes kw n
    = Some r ->
    (exists added, traversed_of r = default [] traversed_nodes ++ added)
    /\ (n <= samplings_of r)%nat.
Proof.
  induction fuel as [| fuel IH]; intros tree cl_accept traversed_nodes kw n r;
    [discriminate |].
  assert (Hstay : forall v,
             Some (Final v (default [] traversed_nodes) n) = Some r ->
             (exists added, traversed_of r = default [] traversed_nodes ++ added)
             /\ (n <= samplings_of r)%nat).
  { intros v [= <-]. simpl. split; [exists []; rewrite app_nil_r |]; auto. }
  assert (Hone : forall v,
             Some (Final v (default [] traversed_nodes) (S n)) = Some r ->
             (exists added, traversed_of r = default [] traversed_nodes ++ added)
             /\ (n <= samplings_of r)%nat).
  { intros v [= <-]. simpl. split; [exists []; rewrite app_nil_r |]; auto. }
  rewrite find_solution_step.
  destruct (resolved cl_accept tree (current_path tree)) as [[|] | e];
    [apply Hstay | | apply Hstay].
  destruct (tree_max_depth tree =? 0); [apply Hstay |].
  destruct (init_node tree []) as [regs | e]; [| apply Hstay].
  cbv zeta.
  destruct (_ <=? 0.25)%float; [apply Hone |].
  destruct (_ <=? 0.375)%float; [apply Hone |].
  intros H. apply search_branches_grows in H.
  - destruct H as [Ha Hn]. split; [exact Ha | lia].
  - intros sub tr m r' Hr. apply IH in Hr. exact Hr.
Qed.

(** ** The shape of a returned solution *)

Lemma search_branches_solution recurse tree path new_branches :
  forall tr n sol tr' n',
    search_branches recurse tree path new_branches tr n
    = Some (Final (Return (Some sol)) tr' n') ->
    exists b sub sub_sol tr1 n1,
      In b new_branches
      /\ path_decoder tree (h_value b) (branch_values b) <> []
      /\ subtree tree (path_decoder tree (h_value b) (branch_values b))
         = Return sub
      /\ recurse sub tr1 n1 = Some (Final (Return (Some sub_sol)) tr' n')
      /\ sol = path ++ path_decoder tree (h_value b) (branch_values b)
                    ++ sub_sol.
Proof.
  induction new_branches as [| b rest IH]; intros tr n sol tr' n'; simpl;
    [discriminate |].
  destruct (skipped path _ tr) eqn:Hskip.
  { intros H. apply IH in H as (b' & sub & ss & tr1 & n1 & Hin & H).
    exists b', sub, ss, tr1, n1. split; [right; exact Hin | exact H]. }
  destruct (subtree tree _) as [sub | e] eqn:Hsub; [| discriminate].
  destruct (recurse sub tr n) as [[[[ss |] | e] tr1 n1] |] eqn:Hr;
    [| | discriminate | discriminate].
  - intros [= <- <- <-]. exists b, sub, ss, tr, n.
    split; [left; reflexivity |]. split; [| auto].
    unfold skipped in Hskip. apply orb_false_iff in Hskip as [_ Hne].
    intros E. rewrite E in Hne. discriminate.
  - intros H. apply IH in H as (b' & sub' & ss & tr2 & n2 & Hin & H).
    exists b', sub', ss, tr2, n2. split; [right; exact Hin | exact H].
Qed.

Lemma find_solution_found fuel tree cl_accept traversed_nodes kw n sol tr' n' :
  find (S fuel) tree precision cl_accept traversed_nodes kw n
  = Some (Final (Return (Some sol)) tr' n') ->
  (resolved cl_accept tree (current_path tree) = Return true /\ sol = [])
  \/ (resolved cl_accept tree (current_path tree) = Return false
      /\ exists new_path sub sub_sol tr1 n1,
          new_path <> []
          /\ subtree tree new_path = Return sub
          /\ find fuel sub precision (Some (resolved cl_accept tree))
                  (Some tr1) no_kwargs n1
             = Some (Final (Return (Some sub_sol)) tr' n')
          /\ sol = current_path tree ++ new_path ++ sub_sol).
Proof.
  rewrite find_solution_step.
  destruct (resolved cl_accept tree (current_path tree)) as [[|] | e];
    [| | discriminate].
  - intros [= <- _ _]. left. auto.
  - intros H. right. split; [reflexivity |].
    destruct (tree_max_depth tree =? 0); [discriminate |].
    destruct (init_node tree []) as [regs | e]; [| discriminate].
    cbv zeta in H.
    destruct (_ <=? 0.25)%float; [discriminate |].
    destruct (_ <=? 0.375)%float; [discriminate |].
    apply search_branches_solution
      in H as (b & sub & ss & tr1 & n1 & _ & Hne & Hsub & Hrec & ->).
    exists (path_decoder tree (h_value b) (branch_values b)), sub, ss, tr1, n1.
    auto.
Qed.


(** X12: On a base tree, the solution returned is the accepted node only when
    the node is a direct candidate.  When the accepted node is found by the
    search of a candidate's subtree, that search returns its path from the
    root of the base tree, and the call puts the candidate's path in front
    of it once more: the solution starts with the candidate's path twice. *)
Theorem find_solution_repeats_candidate
        fuel (a : attrs predicate) cl_accept traversed_nodes kw n sol tr' n' :
  find fuel (QBT a) precision cl_accept traversed_nodes kw n
  = Some (Final (Return (Some sol)) tr' n') ->
  (sol = [] /\ resolved cl_accept (QBT a) [] = Return true)
  \/ exists new_path,
      new_path <> []
      /\ ((sol = new_path
           /\ resolved cl_accept (QBT a) new_path = Return true)
          \/ exists new_path2 rest,
              new_path2 <> []
              /\ sol = new_path ++ new_path ++ new_path2 ++ rest).
Proof.
  destruct fuel as [| fuel]; [discriminate |]. intros H.
  apply find_solution_found in H
      as [[Hcl ->] | (Hcl & np & sub & ss & tr1 & n1 & Hne & Hsub & Hrec & ->)].
  - left. auto.
  - right. exists np. split; [exact Hne |].
    simpl in Hsub. pose proof (Subtree_init_inv _ _ _ Hsub) as Hlen.
    rewrite (Subtree_init_Return _ _ Hlen) in Hsub. injection Hsub as <-.
    destruct fuel as [| fuel]; [discriminate |].
    apply find_solution_found in Hrec
        as [[Hcl2 ->]
           | (_ & np2 & sub2 & ss2 & tr2 & n2 & Hne2 & _ & _ & ->)].
    + left. simpl in Hcl2 |- *. rewrite app_nil_r. auto.
    + right. exists np2, ss2. simpl. auto.
Qed.

(** ** The exceptions of the search *)

Lemma search_branches_raise recurse tree path new_branches :
  constructed tree ->
  (forall sub tr n e tr' n',
      constructed sub ->
      recurse sub tr n = Some (Final (Raise e) tr' n') ->
      e = InsufficientPrecision) ->
  (forall b, In b new_branches -> 0 <= h_value b <= tree_max_depth tree) ->
  forall tr n e tr' n',
    search_branches recurse tree path new_branches tr n
    = Some (Final (Raise e) tr' n') ->
    e = InsufficientPrecision.
Proof.
  intros Hc Hrec. induction new_branches as [| b rest IH];
    intros Hh tr n e tr' n'; simpl.
  - intros [= <- _ _]. reflexivity.
  - assert (Hrest : forall b', In b' rest ->
                               0 <= h_value b' <= tree_max_depth tree)
      by (intros b' Hb'; apply Hh; right; exact Hb').
    destruct (skipped path _ tr); [apply IH, Hrest |].
    pose proof (path_decoder_len tree (h_value b) (branch_values b)
                                 (proj2 (Hh b (or_introl eq_refl)))) as Hlen.
    pose proof (len_nonneg (branch_values b)) as Hqa.
    pose proof (Hh b (or_introl eq_refl)) as Hb.
    destruct (subtree_returns tree
                (path_decoder tree (h_value b) (branch_values b)) Hc)
      as [sub Hsub]; [lia |].
    rewrite Hsub.
    destruct (recurse sub tr n) as [[[[ss |] | e'] tr1 n1] |] eqn:Hr;
      [discriminate | apply IH, Hrest | | discriminate].
    intros [= <- _ _]. eapply Hrec; [| exact Hr].
    eapply constructed_subtree; eassumption.
Qed.

(** X13: When [cl_accept] never raises and the sampled heights lie between 0 and
    the depth of the tree sampled, the only exception a search of a tree the
    constructors built can raise is the one for insufficient precision: no
    candidate's subtree is refused for the length of its root path, and no
    root node fails to initialise. *)
Theorem find_solution_raises_precision fuel :
  forall tree cl_accept traversed_nodes kw n e tr' n',
    constructed tree ->
    (forall path, exists b, resolved cl_accept tree path = Return b) ->
    (forall t regs kw' m o pr,
        constructed t ->
        In (o, pr) (sample t regs precision kw' m) ->
        0 <= h_value o <= tree_max_depth t) ->
    find fuel tree precision cl_accept traversed_nodes kw n
    = Some (Final (Raise e) tr' n') ->
    e = InsufficientPrecision.
Proof.
  induction fuel as [| fuel IH];
    intros tree cl_accept traversed_nodes kw n e tr' n' Hc Hcl Hh;
    [discriminate |].
  rewrite find_solution_step.
  destruct (Hcl (current_path tree)) as [[|] ->]; [discriminate |].
  destruct (tree_max_depth tree =? 0); [discriminate |].
  destruct (init_node_root tree Hc) as [regs ->]. cbv zeta.
  destruct (_ <=? 0.25)%float; [discriminate |].
  destruct (_ <=? 0.375)%float; [intros [= <- _ _]; reflexivity |].
  apply search_branches_raise; [exact Hc | |].
  - intros sub tr m e0 tr0 n0 Hcs Hr.
    eapply (IH sub (Some (resolved cl_accept tree))); [exact Hcs | | | exact Hr].
    + exact Hcl.
    + exact Hh.
  - intros b Hb. apply In_candidates in Hb as (pr & Hin & _).
    eapply Hh; eassumption.
Qed.

End MoreSearch.

(** * Phase estimation *)

Section PhaseEstimationProperties.

Context {predicate : Type}.
Implicit Types (t : Tree predicate).

Lemma iterations_blocks (body : nat -> list (operation nat))
      (rest : list phase_operation) (n first : nat) :
  iterations (map (fun i => Iteration (2 ^ Z.of_nat i) (body i))
                  (seq first n) ++ rest)
  = 2 ^ Z.of_nat first * (2 ^ Z.of_nat n - 1) + iterations rest.
Proof.
  revert first. induction n as [| n IH]; intros first.
  - simpl. lia.
  - cbn [seq map app iterations]. rewrite IH.
    rewrite !Nat2Z.inj_succ, !Z.pow_succ_r by lia. lia.
Qed.

(** X14: [estimate_phase(precision)] applies the walk step [2 ** precision - 1]
    times in all: the Hadamard gates on the estimator come first, then
    [precision] blocks, and the block of qubit [i] of the estimator repeats
    [2 ** i] times the walk step controlled on that qubit alone; the inverse
    Fourier transform is last, and there is nothing else. *)
Theorem estimate_phase_iterations t (precision : Z) :
  0 <= precision ->
  iterations (estimate_phase t precision) = 2 ^ precision - 1
  /\ length (estimate_phase t precision) = S (S (Z.to_nat precision))
  /\ nth_error (estimate_phase t precision) 0
     = Some (Hadamard (Z.to_nat precision))
  /\ (forall i,
         (i < Z.to_nat precision)%nat ->
         nth_error (estimate_phase t precision) (S i)
         = Some (Iteration (2 ^ Z.of_nat i) (quantum_step t [i])))
  /\ nth_error (estimate_phase t precision) (S (Z.to_nat precision))
     = Some (InverseQFT (Z.to_nat precision)).
Proof.
  intros Hp. unfold estimate_phase. cbv zeta.
  set (size := Z.to_nat precision).
  set (blocks := map (fun i => Iteration (2 ^ Z.of_nat i)
                                         (quantum_step t [i]))
                     (seq 0 size)).
  assert (Hblocks : length blocks = size)
    by (unfold blocks; rewrite length_map, length_seq; reflexivity).
  split; [| split; [| split; [reflexivity | split]]].
  - cbn [app iterations]. unfold blocks.
    rewrite (iterations_blocks (fun i => quantum_step t [i])). simpl.
    unfold size. rewrite Z2Nat.id by exact Hp. lia.
  - cbn [app length]. rewrite length_app, Hblocks. simpl. lia.
  - intros i Hi. cbn [app nth_error].
    rewrite nth_error_app1 by (rewrite Hblocks; exact Hi).
    unfold blocks. rewrite nth_error_map, nth_error_seq.
    destruct (Nat.ltb_spec i size) as [_ | Hge]; [reflexivity | lia].
  - cbn [app nth_error].
    rewrite nth_error_app2 by (rewrite Hblocks; lia).
    rewrite Hblocks, Nat.sub_diag. reflexivity.
Qed.

End PhaseEstimationProperties.

(** * Nodes and their specifiers *)

Section Specifiers.

Context {predicate amplitude : Type}.
Variable decoder : Z -> Z.
Implicit Types (t : Tree predicate) (p : list Z).

Lemma nth_map_seq {A} (f : nat -> A) (n k : nat) (d : A) :
  (k < n)%nat -> nth k (map f (seq 0 n)) d = f k.
Proof.
  intros Hk.
  rewrite (nth_indep _ d (f 0%nat)) by (rewrite length_map, length_seq; lia).
  rewrite (map_nth f (seq 0 n) 0%nat k), seq_nth by exact Hk. reflexivity.
Qed.

Lemma specifier_entries (path : list Z) (shape : nat) :
  map (fun k => if Z.of_nat k <? len path
                then nth k (reversed path) 0
                else 0)
      (seq 0 shape)
  = firstn shape (reversed path) ++ repeat 0 (shape - length path).
Proof.
  apply (nth_ext _ _ 0 0).
  - rewrite length_map, length_seq, length_app, length_firstn, repeat_length.
    unfold reversed. rewrite length_rev. lia.
  - intros k Hk. rewrite length_map, length_seq in Hk.
    rewrite nth_map_seq by exact Hk.
    assert (Hl : length (firstn shape (reversed path))
                 = Nat.min shape (length path))
      by (rewrite length_firstn; unfold reversed; rewrite length_rev;
          reflexivity).
    unfold len. destruct (Z.ltb_spec (Z.of_nat k) (Z.of_nat (length path))).
    + rewrite app_nth1 by lia. rewrite nth_firstn.
      destruct (Nat.ltb_spec k shape); [reflexivity | lia].
    + rewrite app_nth2 by lia. rewrite nth_repeat. reflexivity.
Qed.

Lemma init_node_inv t p regs :
  init_node t p = Return regs ->
  (length (current_path t ++ p) <= branch_qa_shape (attrs_of t))%nat
  /\ regs = {| h := tree_max_depth t - len p;
               branch_qa :=
                 reversed (current_path t ++ p)
                   ++ repeat 0 (branch_qa_shape (attrs_of t)
                                - length (current_path t ++ p)) |}.
Proof.
  intros H.
  destruct (le_lt_dec (length (current_path t ++ p))
                      (branch_qa_shape (attrs_of t))) as [Hle | Hgt].
  - split; [exact Hle |]. rewrite (init_node_registers t p Hle) in H.
    injection H as <-. reflexivity.
  - exfalso. revert H.
    destruct t as [a | a root_path original_tree]; unfold init_node, fresh;
      cbn [attrs_of branch_qa current_path] in *.
    + destruct (len p =? 0) eqn:E.
      * apply len_zero in E. subst p. simpl in Hgt. lia.
      * unfold assign_prefix, reversed. rewrite length_rev, repeat_length.
        destruct (Nat.leb_spec (length p) (branch_qa_shape a));
          [simpl in Hgt; lia | discriminate].
    + destruct (len (root_path ++ p) =? 0) eqn:E.
      * apply len_zero in E. rewrite E in Hgt. simpl in Hgt. lia.
      * unfold assign_prefix, reversed. rewrite length_rev, repeat_length.
        destruct (Nat.leb_spec (length (root_path ++ p)) (branch_qa_shape a));
          [lia | discriminate].
Qed.

Lemma sv_specifier_entries t p (amp : option amplitude) :
  spec_branch_qa (sv_specifier decoder (QBTNode_init t p amp))
  = firstn (branch_qa_shape (attrs_of t)) (reversed (current_path t ++ p))
      ++ repeat 0 (branch_qa_shape (attrs_of t)
                   - length (current_path t ++ p)).
Proof.
  unfold sv_specifier, QBTNode_init. cbn [node_tree node_path spec_branch_qa].
  destruct t as [a | a root_path original_tree];
    cbn [current_path app attrs_of]; apply specifier_entries.
Qed.

(** X15: The specifier of the node [path] names the basis state that
    [init_node(path)] prepares: the same height and the same entries of
    [branch_qa], with the workspace at the label of 0.  It always has one
    entry per variable of [branch_qa], also for a path [init_node]
    refuses. *)
Theorem sv_specifier_init_node t p (amp : option amplitude) :
  let spec := sv_specifier decoder (QBTNode_init t p amp) in
  length (spec_branch_qa spec) = branch_qa_shape (attrs_of t)
  /\ spec_branch_workspace spec = decoder 0
  /\ forall regs,
      init_node t p = Return regs ->
      spec_h spec = h regs /\ spec_branch_qa spec = branch_qa regs.
Proof.
  intros spec. unfold spec. rewrite sv_specifier_entries.
  split; [| split; [reflexivity |]].
  - rewrite length_app, length_firstn, repeat_length. unfold reversed.
    rewrite length_rev. lia.
  - intros regs Hinit. apply init_node_inv in Hinit as [Hle ->].
    cbn [h branch_qa]. split; [reflexivity |].
    rewrite firstn_all2 by (unfold reversed; rewrite length_rev; exact Hle).
    reflexivity.
Qed.

End Specifiers.

(** * The statevector graph *)

Section GraphProperties.

Context {predicate amplitude : Type}.
Variable decoder : Z -> Z.
Variable sv_function : specifier -> amplitude.
Implicit Types (tree : Tree predicate) (node : QBTNode predicate amplitude).

Local Abbreviation measured := (measured_node decoder sv_function).
Local Abbreviation layer_step := (add_layer decoder sv_function).

Lemma length_flat_map_constant {A B} (f : A -> list B) (l : list A) (c : nat) :
  (forall x, length (f x) = c) ->
  length (flat_map f l) = (length l * c)%nat.
Proof.
  intros Hf. induction l as [| x l IH]; simpl; [reflexivity |].
  rewrite length_app, Hf, IH. reflexivity.
Qed.

Lemma length_child_nodes tree node :
  length (child_nodes decoder sv_function tree node)
  = Z.to_nat (2 ^ branch_size (attrs_of tree)).
Proof. unfold child_nodes. rewrite length_map, length_seq. reflexivity. Qed.

Lemma child_nodes_spec tree node child :
  In child (child_nodes decoder sv_function tree node) ->
  exists j, child = measured tree (node_path node ++ [decoder (Z.of_nat j)]).
Proof.
  unfold child_nodes. intros H. apply in_map_iff in H as (j & <- & _).
  exists j. reflexivity.
Qed.

(** What [k] rounds of the outer loop have built. *)
Lemma layers_invariant tree (k : nat) :
  let d := Z.to_nat (2 ^ branch_size (attrs_of tree)) in
  let state := Nat.iter k (layer_step tree)
                        ({| nodes := [measured tree []]; edges := [] |},
                         [measured tree []]) in
  length (snd state) = (d ^ k)%nat
  /\ (forall node, In node (snd state) ->
                   length (node_path node) = k
                   /\ node = measured tree (node_path node))
  /\ (forall node, In node (nodes (fst state)) ->
                   (length (node_path node) <= k)%nat
                   /\ node = measured tree (node_path node))
  /\ (length (nodes (fst state)) * d + 1
      = d ^ S k + length (nodes (fst state)))%nat
  /\ S (length (edges (fst state))) = length (nodes (fst state))
  /\ (forall parent child label,
         In (parent, child, label) (edges (fst state)) ->
         node_path child = node_path parent ++ [label]).
Proof.
  intros d. induction k as [| k IH]; cbv zeta.
  - simpl. split; [reflexivity |].
    split; [intros node [<- | []]; split; reflexivity |].
    split; [intros node [<- | []]; split; [simpl; lia | reflexivity] |].
    split; [lia |]. split; [reflexivity |]. intros ? ? ? [].
  - rewrite Nat.iter_succ. cbv zeta in IH.
    destruct (Nat.iter k (layer_step tree) _) as [g last_layer].
    destruct IH as (Hlen & Hlayer & Hnodes & Hcount & Hedges & Hlabel).
    cbn [fst snd] in *. unfold add_layer. cbn [fst snd nodes edges].
    assert (Hnext : length (flat_map (child_nodes decoder sv_function tree)
                                     last_layer)
                    = (d ^ S k)%nat).
    { rewrite (length_flat_map_constant _ _ d)
        by (intros x; apply length_child_nodes).
      rewrite Hlen. simpl. lia. }
    assert (Hchild : forall node,
               In node (flat_map (child_nodes decoder sv_function tree)
                                 last_layer) ->
               length (node_path node) = S k
               /\ node = measured tree (node_path node)).
    { intros node H. apply in_flat_map in H as (parent & Hp & Hc).
      apply child_nodes_spec in Hc as [j ->].
      destruct (Hlayer parent Hp) as [Hk _]. simpl.
      rewrite length_app, Hk. simpl. split; [lia | reflexivity]. }
    split; [exact Hnext |]. split; [exact Hchild |].
    split; [| split; [| split]].
    + intros node H. apply in_app_or in H as [H | H].
      * destruct (Hnodes node H). split; [lia | assumption].
      * destruct (Hchild node H). split; [lia | assumption].
    + rewrite length_app, Hnext. cbn [Nat.pow] in *. nia.
    + rewrite !length_app, Hnext.
      rewrite (length_flat_map_constant _ _ d).
      * rewrite Hlen. cbn [Nat.pow]. lia.
      * intros x. rewrite length_map. apply length_child_nodes.
    + intros parent child label H. apply in_app_or in H as [H | H].
      * apply Hlabel, H.
      * apply in_flat_map in H as (parent' & _ & H).
        apply in_map_iff in H as (child' & [= <- <- <-] & H).
        apply child_nodes_spec in H as [j ->]. simpl.
        rewrite last_last. reflexivity.
Qed.

(** X16: [statevector_graph] on a tree the constructors built, with [D] the
    number of labels of a branch: the graph has
    [(D ** (max_depth + 1) - 1) / (D - 1)] nodes and one edge less, each
    edge going from a path to the path with the edge's label appended; every
    node lies on the tree, at a height between 0 and
    [max_depth], and carries the amplitude the simulator gives for the basis
    state that [init_node] prepares for its path. *)
Theorem statevector_graph_nodes tree :
  constructed tree ->
  let graph := fst (statevector_graph decoder sv_function tree) in
  let root := snd (statevector_graph decoder sv_function tree) in
  let D := 2 ^ branch_size (attrs_of tree) in
  In root (nodes graph)
  /\ node_path root = []
  /\ Z.of_nat (length (nodes graph)) * (D - 1)
     = D ^ (tree_max_depth tree + 1) - 1
  /\ S (length (edges graph)) = length (nodes graph)
  /\ (forall parent child label,
         In (parent, child, label) (edges graph) ->
         node_path child = node_path parent ++ [label])
  /\ forall node,
      In node (nodes graph) ->
      node_tree node = tree
      /\ node_h node = tree_max_depth tree - len (node_path node)
      /\ 0 <= node_h node <= tree_max_depth tree
      /\ exists regs,
          init_node tree (node_path node) = Return regs
          /\ node_amplitude node
             = Some (sv_function
                       {| spec_h := h regs;
                          spec_branch_workspace := decoder 0;
                          spec_branch_qa := branch_qa regs |}).
Proof.
  intros Hc graph root D. destruct (constructed_depth _ Hc) as [Hmd _].
  pose proof (layers_invariant tree (Z.to_nat (tree_max_depth tree)))
    as (_ & _ & Hnodes & Hcount & Hedges & Hlabel).
  cbv zeta in Hnodes, Hcount, Hedges, Hlabel.
  unfold graph, root, statevector_graph. cbn [fst snd].
  set (state := Nat.iter _ _ _) in *.
  split; [| split; [reflexivity |];
             split; [| split; [exact Hedges | split; [exact Hlabel |]]]].
  - clear Hnodes Hcount Hedges Hlabel. unfold state.
    induction (Z.to_nat (tree_max_depth tree)) as [| k IH]; [left; reflexivity |].
    rewrite Nat.iter_succ. destruct (Nat.iter k _ _) as [g l].
    unfold add_layer.
    cbn [fst nodes] in *. apply in_or_app. left. exact IH.
  - apply (f_equal Z.of_nat) in Hcount.
    rewrite !Nat2Z.inj_add, Nat2Z.inj_mul, Nat2Z.inj_pow in Hcount.
    rewrite (Z2Nat.id (2 ^ _)) in Hcount by (apply Z.pow_nonneg; lia).
    rewrite (Nat2Z.inj_succ (Z.to_nat _)),
      (Z2Nat.id (tree_max_depth tree)) in Hcount by exact Hmd.
    fold D in Hcount. unfold Z.succ in Hcount. lia.
  - intros node Hin. destruct (Hnodes node Hin) as [Hlen Hnode].
    pose proof (constructed_shape tree Hc) as Hshape.
    assert (Hfit : (length (current_path tree ++ node_path node)
                    <= branch_qa_shape (attrs_of tree))%nat)
      by (rewrite Hshape, length_app; lia).
    rewrite Hnode. cbn [measured_node QBTNode_init node_tree node_h
                        node_path node_amplitude].
    split; [reflexivity |]. split; [reflexivity |].
    split; [unfold len; lia |].
    eexists. split; [apply init_node_registers, Hfit |].
    cbn [h branch_qa]. do 2 f_equal.
    unfold sv_specifier. cbn [node_tree node_path].
    f_equal.
    destruct tree as [a | a root_path original_tree];
      cbn [current_path app attrs_of] in *;
      rewrite specifier_entries;
      (rewrite firstn_all2
         by (unfold reversed; rewrite length_rev; exact Hfit));
      reflexivity.
Qed.

End GraphProperties.

(** * The state |phi> *)

Section PhiProperties.

Context {predicate : Type}.
Implicit Types (t : Tree predicate) (path : list Z).

Lemma written_app (qa : list Z) (w1 w2 : list (nat * Z)) :
  written qa (w1 ++ w2)
  = match written qa w1 with
    | Some qa1 => written qa1 w2
    | None => None
    end.
Proof.
  revert qa. induction w1 as [| [j v] w1 IH]; intros qa; simpl.
  - reflexivity.
  - destruct (j <? length qa)%nat; [apply IH | reflexivity].
Qed.

(** Writing the first [m] values of [l] from position [off] on. *)
Lemma written_block (m : nat) :
  forall (l : list Z) (off : nat) (qa : list Z),
    (m <= length l)%nat ->
    (off + m <= length qa)%nat ->
    written qa (map (fun k => ((k + off)%nat, nth k l 0)) (seq 0 m))
    = Some (firstn off qa ++ firstn m l ++ skipn (off + m) qa).
Proof.
  induction m as [| m IH]; intros l off qa Hl Hqa.
  - simpl. rewrite Nat.add_0_r, firstn_skipn. reflexivity.
  - destruct l as [| x l]; [simpl in Hl; lia |]. simpl in Hl.
    rewrite <- cons_seq, <- seq_shift. cbn [map]. rewrite map_map.
    cbn [written].
    destruct (Nat.ltb_spec (0 + off) (length qa)) as [Hlt | Hge]; [| lia].
    rewrite (map_ext _ (fun k => ((k + S off)%nat, nth k l 0)))
      by (intros k; f_equal; lia).
    rewrite IH by (rewrite ?length_insert; lia).
    f_equal. simpl Nat.add in *.
    rewrite (take_S_r _ _ x) by (apply list_lookup_insert_eq; lia).
    rewrite take_insert_ge by lia.
    rewrite drop_insert_lt by lia.
    rewrite <- app_assoc. simpl.
    replace (S (off + m)) with (off + S m)%nat by lia. reflexivity.
Qed.

Lemma phi_h_state_lookup (md : Z) (n i first : nat)
      (h_state : gmap Z phi_amplitude) :
  fold_left (fun h_state i =>
               <[md - Z.of_nat i := MinusOnePower (Z.of_nat i)]> h_state)
            (seq first n) h_state
  !! (md - Z.of_nat i)
  = if (first <=? i)%nat && (i <? first + n)%nat
    then Some (MinusOnePower (Z.of_nat i))
    else h_state !! (md - Z.of_nat i).
Proof.
  revert first h_state. induction n as [| n IH]; intros first h_state.
  - simpl. destruct (first <=? i)%nat eqn:E1; simpl; [| reflexivity].
    destruct (Nat.ltb_spec i (first + 0)); [| reflexivity].
    apply Nat.leb_le in E1. lia.
  - cbn [seq fold_left]. rewrite IH.
    destruct (Nat.eq_dec i first) as [-> | Hne].
    + rewrite (proj2 (Nat.leb_gt (S first) first)) by lia.
      rewrite Nat.leb_refl, (proj2 (Nat.ltb_lt first (first + S n))) by lia.
      simpl. apply lookup_insert_eq.
    + assert (E : ((S first <=? i) && (i <? S first + n))%nat
                  = ((first <=? i) && (i <? first + S n))%nat).
      { destruct (Nat.leb_spec (S first) i), (Nat.ltb_spec i (S first + n)),
          (Nat.leb_spec first i), (Nat.ltb_spec i (first + S n));
          simpl; try reflexivity; lia. }
      rewrite E.
      destruct ((first <=? i) && (i <? first + S n))%nat; [reflexivity |].
      apply lookup_insert_ne. lia.
Qed.

(** X17: In the state [init_phi(path)] sets up on a tree the constructors built,
    with [len(path) <= max_depth]: the root height has the amplitude
    [max_depth ** 0.5]; for [1 <= i <= len(path)] the height
    [max_depth - i] has the amplitude [(-1) ** i], and the block for that
    height writes into [branch_qa] exactly what [init_node] writes for the
    last [i] branches of [path], that is for the node [path[len(path)-i:]]. *)
Theorem init_phi_components t path (i : nat) :
  constructed t ->
  len path <= tree_max_depth t ->
  (1 <= i <= length path)%nat ->
  exists h_state writes qa,
    In (InitH h_state) (init_phi t path)
    /\ h_state !! tree_max_depth t = Some (SqrtDepth (tree_max_depth t))
    /\ h_state !! (tree_max_depth t - Z.of_nat i)
       = Some (MinusOnePower (Z.of_nat i))
    /\ In (WhenH (tree_max_depth t - Z.of_nat i) writes) (init_phi t path)
    /\ written (branch_qa (fresh t)) writes = Some qa
    /\ init_node t (skipn (length path - i) path)
       = Return {| h := tree_max_depth t - Z.of_nat i; branch_qa := qa |}.
Proof.
  intros Hc Hlen Hi.
  pose proof (constructed_shape t Hc) as Hshape.
  destruct (constructed_depth t Hc) as [Hmd _].
  set (suffix := skipn (length path - i) path).
  assert (Hsuffix : length suffix = i)
    by (unfold suffix; rewrite length_skipn; lia).
  assert (Hrev : firstn i (reversed path) = reversed suffix)
    by (unfold reversed, suffix; apply firstn_rev).
  assert (Hpath : written (branch_qa (fresh t)) (phi_path_writes path i)
                  = Some (reversed suffix
                            ++ repeat 0 (branch_qa_shape (attrs_of t) - i))).
  { unfold phi_path_writes, fresh. cbn [branch_qa].
    rewrite (map_ext _ (fun k => ((k + 0)%nat, nth k (reversed path) 0)))
      by (intros k; f_equal; lia).
    rewrite written_block.
    - simpl. rewrite Hrev, skipn_repeat. reflexivity.
    - unfold reversed. rewrite length_rev. lia.
    - rewrite repeat_length, Hshape. unfold len in Hlen. lia. }
  assert (Hstate0 : phi_h_state (tree_max_depth t) path !! tree_max_depth t
                    = Some (SqrtDepth (tree_max_depth t))).
  { pose proof (phi_h_state_lookup
                  (tree_max_depth t) (length path) 0 1
                  {[ tree_max_depth t := SqrtDepth (tree_max_depth t) ]})
      as H.
    change (Z.of_nat 0) with 0 in H. rewrite Z.sub_0_r in H.
    unfold phi_h_state. rewrite H. simpl. apply lookup_singleton_eq. }
  assert (Hstate : phi_h_state (tree_max_depth t) path
                   !! (tree_max_depth t - Z.of_nat i)
                   = Some (MinusOnePower (Z.of_nat i))).
  { unfold phi_h_state. rewrite phi_h_state_lookup.
    destruct (Nat.leb_spec 1 i), (Nat.ltb_spec i (1 + length path));
      simpl; try lia; reflexivity. }
  assert (Hseq : In i (seq 1 (length path))) by (apply in_seq; lia).
  assert (Hnode : init_node t suffix
                  = Return {| h := tree_max_depth t - Z.of_nat i;
                              branch_qa :=
                                reversed (current_path t ++ suffix)
                                  ++ repeat 0
                                       (branch_qa_shape (attrs_of t)
                                        - length (current_path t ++ suffix))
                           |}).
  { rewrite init_node_registers
      by (rewrite Hshape, length_app, Hsuffix; unfold len in Hlen; lia).
    unfold len. rewrite Hsuffix. reflexivity. }
  destruct t as [a | a root_path original_tree];
    unfold tree_max_depth in *; cbn [attrs_of current_path app] in *.
  - exists (phi_h_state (max_depth a) path), (phi_path_writes path i).
    eexists. split; [left; reflexivity |]. split; [exact Hstate0 |].
    split; [exact Hstate |]. split; [| split; [exact Hpath |]].
    + right. apply in_map_iff. exists i. split; [reflexivity | exact Hseq].
    + rewrite Hnode, Hsuffix. reflexivity.
  - exists (phi_h_state (max_depth a) path),
           (phi_path_writes path i ++ phi_root_writes root_path i).
    eexists. split; [left; reflexivity |]. split; [exact Hstate0 |].
    split; [exact Hstate |]. split; [| split].
    + right. right. apply in_map_iff. exists i.
      split; [reflexivity | exact Hseq].
    + rewrite written_app, Hpath. unfold phi_root_writes.
      apply written_block.
      * unfold reversed. rewrite length_rev. lia.
      * rewrite length_app, repeat_length. unfold reversed.
        rewrite length_rev, Hsuffix, Hshape. unfold len in Hlen.
        simpl length. lia.
    + rewrite Hnode. do 2 f_equal.
      assert (Hl : i = length (reversed suffix))
        by (unfold reversed; rewrite length_rev; auto).
      rewrite (take_app_length' _ _ _ Hl).
      rewrite (Nat.add_comm i), (Nat.add_comm (length root_path)) at 1.
      rewrite (drop_app_add' _ _ _ _ Hl), skipn_repeat.
      rewrite firstn_all2 by (unfold reversed; rewrite length_rev; lia).
      unfold reversed. rewrite rev_app_distr, <- app_assoc, length_app.
      rewrite Hsuffix. do 3 f_equal. lia.
Qed.

End PhiProperties.

(** * The further properties at concrete inputs *)

Lemma constructed_example_sub (md : Z) (root_path : list Z) :
  0 <= md ->
  len root_path <= md ->
  constructed (example_sub (example_tree md) root_path).
Proof.
  intros Hmd Hlen.
  apply (constructed_Sub (example_tree md) root_path _).
  - apply constructed_QBT, Hmd.
  - unfold example_sub.
    rewrite (Subtree_init_Return (example_tree md) root_path Hlen).
    reflexivity.
Defined.

Lemma init_node_decoded_witness :
  path_decoder (example_sub (example_tree 5) [0; 1]) 1 [1; 1; 1; 0; 0]
  = [1; 1].
Proof.
  apply (init_node_decoded (example_sub (example_tree 5) [0; 1]) [1; 1]
                           {| h := 1; branch_qa := [1; 1; 1; 0; 0] |}).
  reflexivity.
Defined.

Lemma init_node_algorithmic_witness :
  exists regs,
    init_node (example_sub (example_tree 5) [0; 1]) [1; 1] = Return regs
    /\ h regs = 3 - 2
    /\ 0 <= h regs <= 3
    /\ length (branch_qa regs) = 5%nat
    /\ firstn 4 (branch_qa regs) = [1; 1; 1; 0]
    /\ Forall (fun v => v = 0) (skipn 4 (branch_qa regs)).
Proof.
  apply (init_node_algorithmic (example_sub (example_tree 5) [0; 1]) [1; 1]).
  - apply constructed_example_sub; vm_compute; discriminate.
  - vm_compute. discriminate.
Defined.

Lemma subtree_compose_witness :
  subtree (example_sub (example_tree 3) [1]) [0; 1]
  = subtree (example_tree 3) ([1] ++ [0; 1]).
Proof.
  apply (subtree_compose (example_tree 3) [1] [0; 1]
                         (example_sub (example_tree 3) [1])).
  reflexivity.
Defined.

Lemma subtree_constructed_witness :
  match subtree (example_sub (example_tree 3) [1]) [0; 1; 1] with
  | Return sub => True
  | Raise e => e = SubtreeRootTooLong /\ 2 < 3
  end
  /\ match subtree (example_sub (example_tree 3) [1]) [0] with
     | Return sub =>
         tree_max_depth sub = 2 - 1
         /\ exists a', sub = Sub a' ([1] ++ [0]) (example_tree 3)
     | Raise e => False
     end.
Proof.
  split.
  - pose proof (subtree_constructed
                  (example_sub (example_tree 3) [1]) [0; 1; 1]
                  (constructed_example_sub 3 [1] ltac:(lia)
                     ltac:(vm_compute; discriminate))) as H.
    exact H.
  - pose proof (subtree_constructed
                  (example_sub (example_tree 3) [1]) [0]
                  (constructed_example_sub 3 [1] ltac:(lia)
                     ltac:(vm_compute; discriminate))) as H.
    exact (conj (proj1 (proj2 H)) (proj1 (proj2 (proj2 H)))).
Defined.

Lemma copy_init_node_witness :
  exists copied_tree,
    copy (example_tree 3) = Return copied_tree
    /\ tree_max_depth copied_tree = 3
    /\ forall p, init_node copied_tree p = init_node (example_tree 3) p.
Proof.
  apply (copy_init_node (example_tree 3)).
  - apply constructed_example_tree. lia.
  - reflexivity.
Defined.

Lemma path_decoder_length_witness :
  len (path_decoder (example_tree 5) 3 [0; 1; 0; 0; 0]) = Z.min (5 - 3) 5
  /\ path_decoder (example_tree 5) 3 [0; 1; 0; 0; 0]
     = reversed (firstn 2 [0; 1; 0; 0; 0])
  /\ (3 = 5 -> path_decoder (example_tree 5) 3 [0; 1; 0; 0; 0] = []).
Proof.
  apply (path_decoder_length (example_tree 5) 3 [0; 1; 0; 0; 0]).
  vm_compute. discriminate.
Defined.

Lemma subtree_of_decoded_witness :
  exists sub,
    subtree (example_sub (example_tree 3) [1])
            (path_decoder (example_sub (example_tree 3) [1]) 1 [0; 1; 0])
    = Return sub
    /\ constructed sub
    /\ 1 <= tree_max_depth sub <= 2.
Proof.
  apply (subtree_of_decoded (example_sub (example_tree 3) [1]) 1 [0; 1; 0]).
  - apply constructed_example_sub; vm_compute; discriminate.
  - vm_compute. split; discriminate.
Defined.

Lemma find_solution_total_witness :
  exists r,
    example_find 3%nat (example_tree 2) 5 (Some example_cl_accept) None tt
                 0%nat
    = Some r.
Proof.
  apply (find_solution_total tt example_sample example_accept_measurement 5
                             3%nat (example_tree 2) (Some example_cl_accept)
                             None tt 0%nat).
  - apply constructed_example_tree. lia.
  - vm_compute. lia.
Defined.

Lemma find_solution_grows_witness :
  (exists added, [[1]; [0; 0]] = [[1]] ++ added) /\ (0 <= 1)%nat.
Proof.
  apply (find_solution_grows
           tt example_sample example_accept_measurement 5 3%nat
           (example_tree 2) (Some example_cl_accept) (Some [[1]]) tt 0%nat
           (Final (Return (Some [1; 0])) [[1]; [0; 0]] 1%nat)).
  vm_compute. reflexivity.
Defined.


(** The search that finds the accepted node [1, 0] one level down, in the
    subtree at [1], returns [1, 1, 0], a path [cl_accept] does not accept. *)
Example example_find_solution_deep :
  find_solution tt example_sample_deep example_accept_measurement
                3%nat (example_tree 2) 5 (Some example_cl_accept) None tt
                0%nat
  = Some (Final (Return (Some [1; 1; 0])) [] 2%nat)
  /\ example_cl_accept [1; 0] = Return true
  /\ example_cl_accept [1; 1; 0] = Return false.
Proof. vm_compute. repeat split. Qed.

Lemma find_solution_repeats_candidate_witness :
  ([1; 1; 0] = [] /\ example_cl_accept [] = Return true)
  \/ exists new_path,
      new_path <> []
      /\ (([1; 1; 0] = new_path /\ example_cl_accept new_path = Return true)
          \/ exists new_path2 rest,
              new_path2 <> []
              /\ [1; 1; 0] = new_path ++ new_path ++ new_path2 ++ rest).
Proof.
  apply (find_solution_repeats_candidate
           tt example_sample_deep example_accept_measurement 5 3%nat
           (QuantumBacktrackingTree_init 2 1 tt tt)
           (Some example_cl_accept) None tt 0%nat [1; 1; 0] [] 2%nat).
  vm_compute. reflexivity.
Defined.

Lemma find_solution_raises_precision_witness :
  exists e,
    find_solution tt example_sample_root example_accept_measurement
                  3%nat (example_tree 2) 5 (Some example_cl_reject_all)
                  None tt 0%nat
    = Some (Final (Raise e) [] 1%nat)
    /\ e = InsufficientPrecision.
Proof.
  eexists. split; [vm_compute; reflexivity |].
  apply (find_solution_raises_precision
           tt example_sample_root example_accept_measurement 5 3%nat
           (example_tree 2) (Some example_cl_reject_all) None tt 0%nat
           InsufficientPrecision [] 1%nat).
  - apply constructed_example_tree. lia.
  - intros path. exists false. reflexivity.
  - intros t regs kw' m o pr Hc [[= <- <-] | []].
    destruct (constructed_depth t Hc) as [Hmd _]. cbn [h_value]. lia.
  - vm_compute. reflexivity.
Defined.

Lemma estimate_phase_iterations_witness :
  iterations (estimate_phase (example_tree 3) 4) = 2 ^ 4 - 1
  /\ length (estimate_phase (example_tree 3) 4) = 6%nat
  /\ nth_error (estimate_phase (example_tree 3) 4) 0 = Some (Hadamard 4)
  /\ (forall i,
         (i < 4)%nat ->
         nth_error (estimate_phase (example_tree 3) 4) (S i)
         = Some (Iteration (2 ^ Z.of_nat i)
                           (quantum_step (example_tree 3) [i])))
  /\ nth_error (estimate_phase (example_tree 3) 4) 5 = Some (InverseQFT 4).
Proof.
  apply (estimate_phase_iterations (example_tree 3) 4). lia.
Defined.

Lemma sv_specifier_init_node_witness :
  length (spec_branch_qa
            (sv_specifier example_decoder
                          (QBTNode_init (example_tree 3) [1; 0] (@None Z))))
  = 3%nat
  /\ spec_h (sv_specifier example_decoder
                          (QBTNode_init (example_tree 3) [1; 0] (@None Z)))
     = 1
  /\ spec_branch_qa
       (sv_specifier example_decoder
                     (QBTNode_init (example_tree 3) [1; 0] (@None Z)))
     = [0; 1; 0].
Proof.
  pose proof (sv_specifier_init_node example_decoder (example_tree 3) [1; 0]
                                     (@None Z)) as (Hlen & _ & H).
  split; [exact Hlen |].
  exact (H {| h := 1; branch_qa := [0; 1; 0] |} eq_refl).
Defined.

Lemma statevector_graph_nodes_witness :
  let graph :=
    fst (statevector_graph example_decoder example_sv_function
                           (example_tree 2)) in
  Z.of_nat (length (nodes graph)) * (2 ^ 1 - 1) = 2 ^ (2 + 1) - 1
  /\ S (length (edges graph)) = length (nodes graph).
Proof.
  pose proof (statevector_graph_nodes
                example_decoder example_sv_function (example_tree 2)
                (constructed_example_tree 2 ltac:(lia)))
    as (_ & _ & Hcount & Hedges & _).
  split; [exact Hcount | exact Hedges].
Defined.

(** The nodes of the graph of a binary tree of depth 2, in the order of
    the docstring of [statevector_graph]. *)
Example statevector_graph_example :
  map node_path
      (nodes (fst (statevector_graph example_decoder example_sv_function
                                     (example_tree 2))))
  = [[]; [0]; [1]; [0; 0]; [0; 1]; [1; 0]; [1; 1]].
Proof. reflexivity. Qed.

(** [init_phi([1, 0, 0])] in a tree of depth 3: the block for height 2
    writes nothing but zeros, the encoding of the node [0], while the node of
    depth 1 on the path is [1]. *)
Example init_phi_example :
  In (WhenH 2 [(0%nat, 0)]) (init_phi (example_tree 3) [1; 0; 0])
  /\ written [0; 0; 0] [(0%nat, 0)] = Some [0; 0; 0]
  /\ init_node (example_tree 3) [0]
     = Return {| h := 2; branch_qa := [0; 0; 0] |}
  /\ init_node (example_tree 3) [1]
     = Return {| h := 2; branch_qa := [1; 0; 0] |}.
Proof. vm_compute. auto 10. Qed.

Lemma init_phi_components_witness :
  exists h_state writes qa,
    In (InitH h_state) (init_phi (example_tree 3) [1; 0; 0])
    /\ h_state !! 3 = Some (SqrtDepth 3)
    /\ h_state !! (3 - 1) = Some (MinusOnePower 1)
    /\ In (WhenH (3 - 1) writes) (init_phi (example_tree 3) [1; 0; 0])
    /\ written [0; 0; 0] writes = Some qa
    /\ init_node (example_tree 3) [0]
       = Return {| h := 3 - 1; branch_qa := qa |}.
Proof.
  apply (init_phi_components (example_tree 3) [1; 0; 0] 1%nat).
  - apply constructed_example_tree. lia.
  - vm_compute. discriminate.
  - simpl. lia.
Defined.

(** The sum of the probabilities is the sum the code computes, in doubles
    and in the order of the dictionary.  0.075 + 0.1 + 0.2 is the double
    0.375, so the call raises although a candidate is the accepted node;
    0.25 + 2 ** -60 is the double 0.25, so the call returns [None]. *)
Example example_find_solution_rounding :
  zero_mass (example_sample_rounding (example_tree 2)
                                     {| h := 2; branch_qa := [0; 0] |}
                                     1 tt 0%nat)
  = 0.375%float
  /\ find_solution tt example_sample_rounding example_accept_measurement
                   2%nat (example_tree 2) 1 (Some example_cl_accept) None tt
                   0%nat
     = Some (Final (Raise InsufficientPrecision) [] 1%nat)
  /\ zero_mass (example_sample_rounding (example_tree 2)
                                        {| h := 2; branch_qa := [0; 0] |}
                                        2 tt 0%nat)
     = 0.25%float
  /\ find_solution tt example_sample_rounding example_accept_measurement
                   2%nat (example_tree 2) 2 (Some example_cl_accept) None tt
                   0%nat
     = Some (Final (Return None) [] 1%nat).
Proof. vm_compute. repeat split. Qed.
